(** * vite-plugin-resolve-tsconfig-paths: the alias resolution engine

    A shallow embedding of the two plugin variants of the repository
    ([resolveTsConfigPaths], which probes the disk for each target, and
    [resolveTsConfigAliases], which always takes the first target), and the
    properties of the alias compiler, the inheritance walker, the config
    reader, the discovery filter and the resolution hook.

    JavaScript strings are modelled as [string] (sequences of 8-bit
    characters instead of UTF-16 code units); a [Record<string, Array<string>>]
    is the list of its entries in [Object.entries] order. *)

From Stdlib Require Import String Ascii List Bool Arith Lia.
Import ListNotations.
Open Scope string_scope.

(** ** JavaScript string primitives used by the plugin *)

Module JS.

Fixpoint take (n : nat) (s : string) : string :=
  match n, s with
  | S k, String c s' => String c (take k s')
  | _, _ => ""
  end.

Fixpoint drop (n : nat) (s : string) : string :=
  match n, s with
  | S k, String _ s' => drop k s'
  | _, _ => s
  end.

(** [s.startsWith(p)] *)
Definition startsWith (s p : string) : bool := String.prefix p s.

(** [s.endsWith(suf)] *)
Definition endsWith (s suf : string) : bool :=
  Nat.leb (String.length suf) (String.length s)
  && String.eqb (drop (String.length s - String.length suf) s) suf.

(** [s.slice(0, -k)] for a positive [k] *)
Definition slice_to_neg (s : string) (k : nat) : string :=
  take (String.length s - k) s.

(** [s.indexOf(t)], [None] standing for [-1] *)
Fixpoint indexOf (s t : string) : option nat :=
  if String.prefix t s then Some 0
  else match s with
       | "" => None
       | String _ s' => option_map S (indexOf s' t)
       end.

(** [s.includes(t)] *)
Definition includes (s t : string) : bool :=
  match indexOf s t with Some _ => true | None => false end.

(** Truthiness of a string value: the empty string is falsy. *)
Definition truthy (s : string) : bool := negb (String.eqb s "").

(** Truthiness of a possibly [undefined] string. *)
Definition truthy_opt (o : option string) : bool :=
  match o with Some s => truthy s | None => false end.

(** [String(v)] of a possibly [undefined] string. *)
Definition String_of (o : option string) : string :=
  match o with Some s => s | None => "undefined" end.

(** The abstract operation GetSubstitution of ECMAScript for a match without
    capture groups: in the replacement text [$$] stands for a dollar sign,
    [$&] for the matched text, [$`] for the text before the match and [$']
    for the text after it; every other character stands for itself. *)
Fixpoint GetSubstitution (matched str : string) (position : nat)
    (replacement : string) : string :=
  match replacement with
  | "" => ""
  | String c r =>
      if Ascii.eqb c "$" then
        match r with
        | String d r' =>
            if Ascii.eqb d "$" then
              String "$" (GetSubstitution matched str position r')
            else if Ascii.eqb d "&" then
              matched ++ GetSubstitution matched str position r'
            else if Ascii.eqb d "`" then
              take position str ++ GetSubstitution matched str position r'
            else if Ascii.eqb d "'" then
              drop (position + String.length matched) str
              ++ GetSubstitution matched str position r'
            else String c (GetSubstitution matched str position r)
        | "" => String c ""
        end
      else String c (GetSubstitution matched str position r)
  end.

(** [s.replace(find, replacement)] with a string [find]: only the first
    occurrence is replaced. *)
Definition replace (s find replacement : string) : string :=
  match indexOf s find with
  | None => s
  | Some pos =>
      take pos s ++ GetSubstitution find s pos replacement
      ++ drop (pos + String.length find) s
  end.

End JS.

(** ** The placeholder and its module-scope regular expression *)

(** The source text of [configDirRegex = /\$\{configDir\}/g]: the regular
    expression matches exactly this literal token. *)
Definition configDir : string := "${configDir}".

(** [configDirRegex] carries the [g] flag, so the object keeps a [lastIndex]
    between calls of [test]; that number is the state threaded below. *)
Definition lastIndex := nat.

(** [configDirRegex.test(s)] from a given [lastIndex]: the search starts
    there; a hit moves [lastIndex] behind the match, a miss resets it. *)
Definition configDirRegex_test (li : lastIndex) (s : string)
    : bool * lastIndex :=
  if Nat.leb li (String.length s) then
    match JS.indexOf (JS.drop li s) configDir with
    | Some i => (true, li + i + String.length configDir)
    | None => (false, 0)
    end
  else (false, 0).

(** The scan of [s.replace(configDirRegex, replacement)]: [str] is the whole
    subject, [pos] the index of the head of [s] in it, and [skip] counts the
    characters of a match still to be passed over. *)
Fixpoint replace_scan (str replacement : string) (pos skip : nat) (s : string)
    : string :=
  match s with
  | "" => ""
  | String c s' =>
      match skip with
      | S k => replace_scan str replacement (S pos) k s'
      | 0 =>
          if String.prefix configDir s then
            JS.GetSubstitution configDir str pos replacement
            ++ replace_scan str replacement (S pos)
                 (String.length configDir - 1) s'
          else String c (replace_scan str replacement (S pos) 0 s')
      end
  end.

(** [s.replace(configDirRegex, replacement)]: with the [g] flag every match
    is replaced, in one pass from the left, and [lastIndex] ends at 0. *)
Definition replace_configDir (s replacement : string) : string :=
  replace_scan s replacement 0 0 s.

(** ** Data model *)

(** [TsConfigPaths = Record<string, Array<string>>] *)
Definition TsConfigPaths := list (string * list string).

Record ResolvedAlias := mkResolvedAlias {
  find : string;
  replacement : string
}.

Record UnresolvedAlias := mkUnresolvedAlias {
  baseUrl : option string;
  paths : TsConfigPaths
}.

(** The [extends] field is declared as an array; the walker guards its use
    with [Array.isArray], so the single-string form of a tsconfig is kept
    apart. *)
Inductive ExtendsField :=
| ExtendsString (s : string)
| ExtendsArray (l : list string).

Record CompilerOptions := mkCompilerOptions {
  co_paths : option TsConfigPaths;
  co_baseUrl : option string
}.

(** What [JSON.parse] yields, seen through the type [TsConfig]; the source
    reads every field through optional chaining, so [compilerOptions] may be
    missing. *)
Record TsConfig := mkTsConfig {
  compilerOptions : option CompilerOptions;
  extends : option ExtendsField
}.

Definition cfg_paths (c : option TsConfig) : option TsConfigPaths :=
  match c with
  | Some c' => match compilerOptions c' with
               | Some o => co_paths o
               | None => None
               end
  | None => None
  end.

Definition cfg_baseUrl (c : option TsConfig) : option string :=
  match c with
  | Some c' => match compilerOptions c' with
               | Some o => co_baseUrl o
               | None => None
               end
  | None => None
  end.

(** ** Exceptions *)

Inductive Error :=
| SyntaxError   (* JSON.parse, new RegExp *)
| TypeError     (* a property read on undefined *)
| FsError.      (* readFileSync *)

Inductive Result (A : Type) :=
| Ok (a : A)
| Throw (e : Error).
Arguments Ok {A} a.
Arguments Throw {A} e.

Definition rbind {A B} (r : Result A) (k : A -> Result B) : Result B :=
  match r with
  | Ok a => k a
  | Throw e => Throw e
  end.

(** Code that can throw and that reads and writes [configDirRegex.lastIndex]. *)
Definition M (A : Type) := lastIndex -> Result (A * lastIndex).

Definition ret {A} (a : A) : M A := fun li => Ok (a, li).

Definition bind {A B} (m : M A) (k : A -> M B) : M B :=
  fun li => match m li with
            | Ok (a, li') => k a li'
            | Throw e => Throw e
            end.

Definition lift {A} (r : Result A) : M A :=
  fun li => match r with
            | Ok a => Ok (a, li)
            | Throw e => Throw e
            end.

Definition test (s : string) : M bool :=
  fun li => Ok (configDirRegex_test li s).

Declare Scope walker_scope.
Delimit Scope walker_scope with walker.
Notation "x <- m ;; k" := (bind m (fun x => k))
  (at level 61, m at next level, right associativity) : walker_scope.

(** ** The environment of the plugin

    Node's [path] and [fs] modules, [JSON.parse], [fast-glob], the regular
    expression engine and the host's [this.resolve] are what the plugin is
    linked against; the engine is stated over any implementation of them. *)
Class Node := {
  (** [path.resolve(...args)] *)
  path_resolve : list string -> string;
  (** [path.join(...args)] *)
  path_join : list string -> string;
  (** [path.dirname(p)] *)
  path_dirname : string -> string;
  (** [path.isAbsolute(p)] *)
  path_isAbsolute : string -> bool;
  (** [process.cwd()] *)
  process_cwd : string;
  (** [fs.existsSync(p)] *)
  existsSync : string -> bool;
  (** [String(fs.readFileSync(p))]; [None] when the read throws *)
  readFileSync : string -> option string;
  (** [JSON.parse(text) as TsConfig]; [None] when the text is not JSON *)
  JSON_parse : string -> option TsConfig;
  (** [fg.sync(pattern, { onlyFiles: true, ignore })] *)
  fg_sync : string -> list string -> list string;
  (** [new RegExp(pattern).test(subject)]; [None] when the constructor
      rejects the pattern *)
  RegExp_test : string -> string -> option bool;
  (** [await this.resolve(specifier)]: the id of the resolved module, or
      [None] for [null] *)
  this_resolve : string -> option string
}.

(** ** Config reader, inheritance walker and resolution hook

    These three functions are written out twice in the repository, once per
    variant, with the same text. *)

Section Engine.
Context {node : Node}.
Local Open Scope walker_scope.

(** [resolveTsConfigPath]: [Ok None] is the bare [return] for a missing
    file. *)
Definition resolveTsConfigPath (tsConfigPath : string)
    : Result (option TsConfig) :=
  let _tsconfigPath := path_resolve [tsConfigPath] in
  let tsconfigExists := existsSync (path_resolve [_tsconfigPath]) in
  if negb tsconfigExists then Ok None
  else
    match readFileSync _tsconfigPath with
    | None => Throw FsError
    | Some text =>
        match JSON_parse text with
        | None => Throw SyntaxError
        | Some tsConfigContent =>
            Ok (Some {|
              extends := extends tsConfigContent;
              compilerOptions := Some {|
                co_baseUrl := cfg_baseUrl (Some tsConfigContent);
                co_paths := cfg_paths (Some tsConfigContent) |} |})
        end
    end.

(** The initial content of [aliases]: the file's own pair, when it declares
    both [paths] and a non-empty [baseUrl]. *)
Definition ownAliases (tsConfigContent : option TsConfig)
    : list UnresolvedAlias :=
  match cfg_paths tsConfigContent, cfg_baseUrl tsConfigContent with
  | Some p, Some b =>
      if JS.truthy b then [ {| baseUrl := Some b; paths := p |} ] else []
  | _, _ => []
  end.

(** Where an [extends] entry is read from. *)
Definition extendsTarget (root extendsPath : string) : string :=
  if negb (path_isAbsolute extendsPath)
     && negb (JS.startsWith extendsPath "./")
  then path_resolve
         [ path_join [root; "node_modules"];
           if JS.endsWith extendsPath ".json" then extendsPath
           else extendsPath ++ ".json" ]
  else extendsPath.

(** The inner [values.filter]: every value is tested, in order. *)
Fixpoint filterValues (values : list string) : M (list string) :=
  match values with
  | [] => ret []
  | v :: vs =>
      hit <- test v ;;
      rest <- filterValues vs ;;
      ret (if hit then v :: rest else rest)
  end.

(** The outer filter over [Object.entries]: an entry stays, whole, when
    the inner filter kept something; the flag is [pathsHasConfigDir]. *)
Fixpoint filterEntries (entries : TsConfigPaths) : M (TsConfigPaths * bool) :=
  match entries with
  | [] => ret ([], false)
  | (pattern, values) :: es =>
      kept <- filterValues values ;;
      rest <- filterEntries es ;;
      let hit := negb (Nat.eqb (List.length kept) 0) in
      ret (if hit then (pattern, values) :: fst rest else fst rest,
           hit || snd rest)
  end.

(** The body of the [extends] loop behind the read: what one parent adds
    to [aliases]; [None] is a [continue]. *)
Definition extendsContribution (extendsTsConfigContent : option TsConfig)
    : M (option UnresolvedAlias) :=
  baseUrlHasConfigDir <-
    test (JS.String_of (cfg_baseUrl extendsTsConfigContent)) ;;
  match cfg_paths extendsTsConfigContent with
  | None => ret None
  | Some ps =>
      filtered <- (if baseUrlHasConfigDir : bool then ret (ps, false)
                   else filterEntries ps) ;;
      if negb (JS.truthy_opt (cfg_baseUrl extendsTsConfigContent))
         && negb (snd filtered)
      then ret None
      else ret (Some {| baseUrl := cfg_baseUrl extendsTsConfigContent;
                        paths := fst filtered |})
  end.

Definition pushed (contribution : option UnresolvedAlias)
    : list UnresolvedAlias :=
  match contribution with Some a => [a] | None => [] end.

Fixpoint extendsLoop (root : string) (entries : list string)
    (aliases : list UnresolvedAlias) : M (list UnresolvedAlias) :=
  match entries with
  | [] => ret aliases
  | extendsPath :: rest =>
      extendsTsConfigContent <-
        lift (resolveTsConfigPath (extendsTarget root extendsPath)) ;;
      contribution <- extendsContribution extendsTsConfigContent ;;
      extendsLoop root rest (aliases ++ pushed contribution)%list
  end.

Definition getRecursivePathsFromTsConfig (root tsConfigPath : string)
    : M (list UnresolvedAlias) :=
  tsConfigContent <- lift (resolveTsConfigPath tsConfigPath) ;;
  let aliases := ownAliases tsConfigContent in
  match tsConfigContent with
  | Some {| extends := Some (ExtendsArray entries) |} =>
      extendsLoop root entries aliases
  | _ => ret aliases
  end.

(** The loop of [configResolved] over the discovered files. *)
Fixpoint collectUnresolved (root : string) (tsConfigFiles : list string)
    (unresolvedAlias : list UnresolvedAlias) : M (list UnresolvedAlias) :=
  match tsConfigFiles with
  | [] => ret unresolvedAlias
  | tsConfig :: rest =>
      tsConfigPaths <- getRecursivePathsFromTsConfig root tsConfig ;;
      collectUnresolved root rest (unresolvedAlias ++ tsConfigPaths)%list
  end.

(** The filter of [configResolved] over the discovered files. *)
Definition keepTsConfig (root tsConfigPath : string) : bool :=
  let tsConfigDir := path_dirname tsConfigPath in
  let viteConfigFile :=
    fg_sync (path_resolve [path_dirname tsConfigDir; "vite.config.{js,ts}"]) []
  in
  if negb (Nat.eqb (List.length viteConfigFile) 0)
     && negb (String.eqb tsConfigDir root)
  then false else true.

(** [resolveId], over the rule list the closure holds. *)
Fixpoint resolveId (resolvedAliases : list ResolvedAlias) (source : string)
    : Result (option string) :=
  match resolvedAliases with
  | [] => Ok None
  | {| find := find; replacement := replacement |} :: rest =>
      match RegExp_test find source with
      | None => Throw SyntaxError
      | Some true =>
          match this_resolve (JS.replace source find replacement) with
          | Some id => Ok (Some id)
          | None => resolveId rest source
          end
      | Some false => resolveId rest source
      end
  end.

(** The hook as the host calls it: [resolvedAliases] is [undefined] until
    [configResolved] has run. *)
Definition hook (resolvedAliases : option (list ResolvedAlias))
    (source : string) : Result (option string) :=
  match resolvedAliases with
  | None => Throw TypeError
  | Some rules => resolveId rules source
  end.

End Engine.

Definition tsAliasSuffix : string := "/*".

(** ** The existence-checking variant (plugin [resolveTsConfigPaths]) *)

Module ResolveTsConfigPaths.
Section Compiler.
Context {node : Node}.

Definition removeSuffixPatternFromTsAlias (tsAlias : string) : string :=
  if JS.endsWith tsAlias tsAliasSuffix
  then JS.slice_to_neg tsAlias (String.length tsAliasSuffix)
  else tsAlias.

(** The body of the loop of [resolveMaps]: the new value of [maps[m]]. *)
Definition resolveMap (baseUrl m : string) : string :=
  let mapWithoutSuffixPattern := removeSuffixPatternFromTsAlias m in
  if String.eqb mapWithoutSuffixPattern "*" then path_resolve [baseUrl]
  else path_resolve [baseUrl; replace_configDir mapWithoutSuffixPattern ""].

(** [resolveMaps] overwrites the array it is given and returns it; each
    array comes from one [JSON.parse] and is compiled once, so the returned
    value is all that is observed. *)
Definition resolveMaps (baseUrl : string) (maps : list string) : list string :=
  List.map (resolveMap baseUrl) maps.

(** [_baseUrl] *)
Definition effectiveBaseUrl (root : string) (baseUrl : option string)
    : string :=
  match baseUrl with
  | None => root
  | Some b =>
      if String.eqb b "." then root
      else if JS.startsWith b configDir then replace_configDir b root
      else b
  end.

(** The body of the inner loop of [resolveAliases]: what one entry of
    [paths] pushes. *)
Definition resolveEntry (root : string) (baseUrl : option string)
    (entry : string * list string) : list ResolvedAlias :=
  let (pattern, remaps) := entry in
  let patternWithoutSuffix := removeSuffixPatternFromTsAlias pattern in
  if negb (JS.truthy patternWithoutSuffix) then []
  else
    let _baseUrl := effectiveBaseUrl root baseUrl in
    match List.filter existsSync (resolveMaps _baseUrl remaps) with
    | [] => []
    | map :: _ =>
        if negb (JS.truthy map) then []
        else [ {| find := patternWithoutSuffix; replacement := map |} ]
    end.

Definition resolveAliases (root : string) (aliases : list UnresolvedAlias)
    : list ResolvedAlias :=
  List.flat_map
    (fun a => List.flat_map (resolveEntry root (baseUrl a)) (paths a))
    aliases.

(** The files [configResolved] reads; the glob is resolved against an
    absolute second argument, as in the source. *)
Definition tsConfigFiles (root : string) : list string :=
  List.filter (keepTsConfig root)
    (fg_sync (path_resolve [root; "/tsconfig(.*)?.json"]) []).

(** [configResolved] with the plugin option [generatePathsFromViteConfig]
    at its default, [false], from the [lastIndex] that [configDirRegex] has
    when the host calls: the result is the new value of the closure's
    [resolvedAliases]. *)
Definition configResolved (root : option string) (li : lastIndex)
    : Result (list ResolvedAlias) :=
  let root := match root with Some r => r | None => process_cwd end in
  rbind (collectUnresolved root (tsConfigFiles root) [] li)
    (fun unresolvedAlias => Ok (resolveAliases root (fst unresolvedAlias))).

End Compiler.
End ResolveTsConfigPaths.

(** ** The always-first-priority variant (plugin [resolveTsConfigAliases]) *)

Module ResolveTsConfigAliases.
Section Compiler.
Context {node : Node}.

Definition tryExtractFindPatternFromTsAlias (tsAlias : string)
    : option string :=
  if JS.endsWith tsAlias tsAliasSuffix
  then Some (JS.slice_to_neg tsAlias (String.length tsAliasSuffix))
  else None.

(** A possibly [undefined] string that is truthy. *)
Definition whenTruthy (o : option string) : option string :=
  match o with
  | Some s => if JS.truthy s then Some s else None
  | None => None
  end.

(** The body of the inner loop of [resolveAliases]: what one entry of
    [paths] pushes. The first element of an empty array is [undefined],
    and [tryExtractFindPatternFromTsAlias] reads a property of it. *)
Definition resolveEntry (root : string) (baseUrl : option string)
    (entry : string * list string) : Result (list ResolvedAlias) :=
  let (pattern, remaps) := entry in
  match remaps with
  | [] => Throw TypeError
  | remapWithGreaterPriority :: _ =>
      match whenTruthy
              (tryExtractFindPatternFromTsAlias remapWithGreaterPriority) with
      | None => Ok []
      | Some remapWithGreaterPriorityWithoutAliasSuffix =>
          match whenTruthy (tryExtractFindPatternFromTsAlias pattern) with
          | None => Ok []
          | Some findPattern =>
              let _baseUrl :=
                match baseUrl with
                | Some b => if String.eqb b "." then Some root else Some b
                | None => None
                end in
              match whenTruthy _baseUrl with
              | Some _baseUrl =>
                  let baseUrlHasConfigDir := JS.includes _baseUrl configDir in
                  Ok [ {| find := findPattern;
                          replacement :=
                            if baseUrlHasConfigDir then
                              path_resolve
                                [ path_join
                                    [ replace_configDir _baseUrl root;
                                      replace_configDir
                                        remapWithGreaterPriorityWithoutAliasSuffix
                                        "" ] ]
                            else
                              path_resolve
                                [ path_join
                                    [ replace_configDir _baseUrl root;
                                      replace_configDir
                                        remapWithGreaterPriorityWithoutAliasSuffix
                                        root ] ] |} ]
              | None =>
                  Ok [ {| find := findPattern;
                          replacement :=
                            path_resolve
                              [ path_join
                                  [ root;
                                    replace_configDir
                                      remapWithGreaterPriorityWithoutAliasSuffix
                                      "" ] ] |} ]
              end
          end
      end
  end.

Fixpoint entriesLoop (root : string) (baseUrl : option string)
    (entries : TsConfigPaths) (resolvedAliases : list ResolvedAlias)
    : Result (list ResolvedAlias) :=
  match entries with
  | [] => Ok resolvedAliases
  | entry :: rest =>
      rbind (resolveEntry root baseUrl entry)
        (fun rules =>
           entriesLoop root baseUrl rest (resolvedAliases ++ rules)%list)
  end.

Fixpoint aliasesLoop (root : string) (aliases : list UnresolvedAlias)
    (resolvedAliases : list ResolvedAlias) : Result (list ResolvedAlias) :=
  match aliases with
  | [] => Ok resolvedAliases
  | a :: rest =>
      rbind (entriesLoop root (baseUrl a) (paths a) resolvedAliases)
        (aliasesLoop root rest)
  end.

Definition resolveAliases (root : string) (aliases : list UnresolvedAlias)
    : Result (list ResolvedAlias) :=
  aliasesLoop root aliases [].

(** The files [configResolved] reads. *)
Definition tsConfigFiles (_root : string) : list string :=
  List.filter (keepTsConfig _root)
    (fg_sync (path_resolve [_root; "**/tsconfig(.*)?.json"])
       ["**/node_modules/**"]).

(** [configResolved], from the [lastIndex] that [configDirRegex] has when
    the host calls: the result is the new value of the closure's
    [resolvedAliases]. *)
Definition configResolved (root : option string) (li : lastIndex)
    : Result (list ResolvedAlias) :=
  let _root := match root with Some r => r | None => process_cwd end in
  rbind (collectUnresolved _root (tsConfigFiles _root) [] li)
    (fun unresolvedAlias => resolveAliases _root (fst unresolvedAlias)).

End Compiler.
End ResolveTsConfigAliases.

(** ** A reference environment: Node's POSIX [path] over a listed disk *)

Module Posix.

Definition isSlash (c : ascii) : bool := Ascii.eqb c "/".

(** [path.isAbsolute] *)
Definition isAbsolute (p : string) : bool :=
  match p with
  | String c _ => isSlash c
  | "" => false
  end.

(** The segments of a path between its separators. *)
Fixpoint split (s : string) : list string :=
  match s with
  | "" => [""]
  | String c s' =>
      if isSlash c then "" :: split s'
      else match split s' with
           | seg :: segs => String c seg :: segs
           | [] => [String c ""]
           end
  end.

(** The segment stack of [normalizeString], last segment first: empty and
    [.] segments are dropped, [..] removes the segment before it, or is kept
    when there is none to remove and [allowAboveRoot] holds. *)
Fixpoint normalizeSegments (allowAboveRoot : bool) (res : list string)
    (segs : list string) : list string :=
  match segs with
  | [] => List.rev res
  | seg :: rest =>
      if String.eqb seg "" || String.eqb seg "." then
        normalizeSegments allowAboveRoot res rest
      else if String.eqb seg ".." then
        match res with
        | last :: res' =>
            if String.eqb last ".." then
              normalizeSegments allowAboveRoot
                (if allowAboveRoot then ".." :: res else res) rest
            else normalizeSegments allowAboveRoot res' rest
        | [] =>
            normalizeSegments allowAboveRoot
              (if allowAboveRoot then [".."] else []) rest
        end
      else normalizeSegments allowAboveRoot (seg :: res) rest
  end.

Definition normalizeString (path : string) (allowAboveRoot : bool) : string :=
  String.concat "/" (normalizeSegments allowAboveRoot [] (split path)).

(** The right-to-left loop of [path.resolve]: arguments are put in front
    of [resolvedPath] until one is absolute; the working directory comes
    last. *)
Fixpoint resolveLoop (cwd : string) (rev_args : list string)
    (resolvedPath : string) : string * bool :=
  match rev_args with
  | [] =>
      if String.eqb cwd "" then (resolvedPath, false)
      else (cwd ++ "/" ++ resolvedPath, isAbsolute cwd)
  | path :: rest =>
      if String.eqb path "" then resolveLoop cwd rest resolvedPath
      else if isAbsolute path then (path ++ "/" ++ resolvedPath, true)
      else resolveLoop cwd rest (path ++ "/" ++ resolvedPath)
  end.

(** [path.resolve(...args)] *)
Definition resolve (cwd : string) (args : list string) : string :=
  let (resolvedPath, resolvedAbsolute) := resolveLoop cwd (List.rev args) "" in
  let normalized := normalizeString resolvedPath (negb resolvedAbsolute) in
  if resolvedAbsolute then "/" ++ normalized
  else if String.eqb normalized "" then "." else normalized.

Definition lastIsSlash (p : string) : bool :=
  JS.endsWith p "/".

(** [path.normalize(path)] *)
Definition normalize (path : string) : string :=
  if String.eqb path "" then "."
  else
    let isAbs := isAbsolute path in
    let trailingSeparator := lastIsSlash path in
    let p := normalizeString path (negb isAbs) in
    if String.eqb p "" then
      (if isAbs then "/" else if trailingSeparator then "./" else ".")
    else
      let p := if trailingSeparator then p ++ "/" else p in
      if isAbs then "/" ++ p else p.

(** [path.join(...args)] *)
Definition join (args : list string) : string :=
  let joined :=
    String.concat "/"
      (List.filter (fun a => negb (String.eqb a "")) args) in
  if String.eqb joined "" then "." else normalize joined.

(** The backward scan of [path.dirname] over the characters behind the
    first, last character first: the text before the last separator that
    follows a name. *)
Fixpoint dirnameScan (rev_tail : list ascii) (matchedSlash : bool)
    : option (list ascii) :=
  match rev_tail with
  | [] => None
  | c :: rest =>
      if isSlash c then
        (if matchedSlash then dirnameScan rest true else Some rest)
      else dirnameScan rest false
  end.

(** [path.dirname(path)] *)
Definition dirname (path : string) : string :=
  match path with
  | "" => "."
  | String c tail =>
      let hasRoot := isSlash c in
      match dirnameScan (List.rev (list_ascii_of_string tail)) true with
      | None => if hasRoot then "/" else "."
      | Some rev_before =>
          if hasRoot && Nat.eqb (List.length rev_before) 0 then "//"
          else String c (string_of_list_ascii (List.rev rev_before))
      end
  end.

(** [path.basename(path)] for a path without a trailing separator. *)
Definition basename (path : string) : string :=
  List.last (split path) "".

End Posix.

(** A disk: the regular files with their text, and the directories. *)
Record Disk := mkDisk {
  files : list (string * string);
  directories : list string
}.

Definition isFile (d : Disk) (p : string) : bool :=
  List.existsb (fun f => String.eqb (fst f) p) (files d).

Definition isDirectory (d : Disk) (p : string) : bool :=
  List.existsb (String.eqb p) (directories d).

Definition readFile (d : Disk) (p : string) : option string :=
  option_map snd (List.find (fun f => String.eqb (fst f) p) (files d)).

(** The file names the plugin's tsconfig glob accepts: [tsconfig], then
    nothing or a dot and any text, then [.json]. *)
Definition isTsConfigName (name : string) : bool :=
  JS.startsWith name "tsconfig" && JS.endsWith name ".json"
  && Nat.leb 13 (String.length name)
  && (let middle := JS.slice_to_neg (JS.drop 8 name) 5 in
      String.eqb middle "" || JS.startsWith middle ".").

Definition isViteConfigName (name : string) : bool :=
  String.eqb name "vite.config.js" || String.eqb name "vite.config.ts".

(** [fast-glob] on a listed disk, for the three pattern shapes the plugin
    builds from a directory free of glob syntax: the two vite config names
    in a directory, the tsconfig names anywhere under a directory, and the
    tsconfig names in a directory; the one ignore pattern the plugin passes
    excludes what lies under a [node_modules]. *)
Definition glob (d : Disk) (pattern : string) (ignore : list string)
    : list string :=
  let ignored p :=
    List.existsb (String.eqb "**/node_modules/**") ignore
    && List.existsb (String.eqb "node_modules")
         (List.removelast (Posix.split p)) in
  let name := Posix.basename pattern in
  let dir := Posix.dirname pattern in
  let candidates :=
    List.filter (fun p => negb (ignored p)) (List.map fst (files d)) in
  if String.eqb name "vite.config.{js,ts}" then
    List.filter
      (fun p => String.eqb (Posix.dirname p) dir
                && isViteConfigName (Posix.basename p))
      candidates
  else if String.eqb name "tsconfig(.*)?.json" then
    if String.eqb (Posix.basename dir) "**" then
      List.filter
        (fun p => JS.startsWith p
                    (let top := Posix.dirname dir in
                     if String.eqb top "/" then top else top ++ "/")
                  && isTsConfigName (Posix.basename p))
        candidates
    else
      List.filter
        (fun p => String.eqb (Posix.dirname p) dir
                  && isTsConfigName (Posix.basename p))
        candidates
  else [].

(** A fragment of the regular expression syntax: characters that stand for
    themselves, and the dot. *)
Definition isSyntaxCharacter (c : ascii) : bool :=
  List.existsb (Ascii.eqb c)
    (list_ascii_of_string "^$\.*+?()[]{}|").

Definition isLineTerminator (c : ascii) : bool :=
  Ascii.eqb c "010" || Ascii.eqb c "013".

Fixpoint plain (pattern : string) : bool :=
  match pattern with
  | "" => true
  | String c r => negb (isSyntaxCharacter c) && plain r
  end.

Fixpoint plainOrDot (pattern : string) : bool :=
  match pattern with
  | "" => true
  | String c r =>
      (Ascii.eqb c "." || negb (isSyntaxCharacter c)) && plainOrDot r
  end.

(** Whether the pattern matches at the head of the subject. *)
Fixpoint matchHere (pattern subject : string) : bool :=
  match pattern with
  | "" => true
  | String p r =>
      match subject with
      | "" => false
      | String c s' =>
          (if Ascii.eqb p "." then negb (isLineTerminator c)
           else Ascii.eqb p c)
          && matchHere r s'
      end
  end.

(** Whether the pattern matches somewhere in the subject. *)
Fixpoint search (pattern subject : string) : bool :=
  matchHere pattern subject
  || match subject with
     | "" => false
     | String _ s' => search pattern s'
     end.

(** What is asked of a regular expression engine on that fragment. *)
Definition ecmaOnFragment {node : Node} : Prop :=
  forall pattern subject,
    plainOrDot pattern = true ->
    RegExp_test pattern subject = Some (search pattern subject).

(** An engine that decides the fragment and hands every other pattern to
    [beyond]. *)
Definition fragmentEngine (beyond : string -> string -> option bool)
    (pattern subject : string) : option bool :=
  if plainOrDot pattern then Some (search pattern subject)
  else beyond pattern subject.

(** The reference environment: POSIX paths from a working directory, a
    listed disk, a table standing for [JSON.parse], and the host's
    resolver. *)
Definition posixNode (cwd : string) (d : Disk)
    (parse : string -> option TsConfig)
    (beyond : string -> string -> option bool)
    (host : string -> option string) : Node := {|
  path_resolve := Posix.resolve cwd;
  path_join := Posix.join;
  path_dirname := Posix.dirname;
  path_isAbsolute := Posix.isAbsolute;
  process_cwd := cwd;
  existsSync := fun p => isFile d p || isDirectory d p;
  readFileSync := readFile d;
  JSON_parse := parse;
  fg_sync := glob d;
  RegExp_test := fragmentEngine beyond;
  this_resolve := host
|}.


(** ** Character discipline for the placeholder *)

(** No dollar sign in the string. *)
Fixpoint dollarFree (s : string) : bool :=
  match s with
  | "" => true
  | String c r => negb (Ascii.eqb c "$") && dollarFree r
  end.

(** Every dollar sign of the string begins an occurrence of the
    placeholder. *)
Fixpoint dollarsArePlaceholders (s : string) : bool :=
  match s with
  | "" => true
  | String c r =>
      (if Ascii.eqb c "$" then String.prefix configDir s else true)
      && dollarsArePlaceholders r
  end.

(** No path separator in the string. *)
Fixpoint slashFree (s : string) : bool :=
  match s with
  | "" => true
  | String c r => negb (Ascii.eqb c "/") && slashFree r
  end.

(** [path.resolve] and [path.join] put no dollar sign into their result. *)
Definition pathsAddNoDollar {node : Node} : Prop :=
  forall args,
    Forall (fun a => dollarFree a = true) args ->
    dollarFree (path_resolve args) = true
    /\ dollarFree (path_join args) = true.

(** ** Sample projects *)

Definition noParse : string -> option TsConfig := fun _ => None.
Definition noEngine : string -> string -> option bool := fun _ _ => None.
Definition noHost : string -> option string := fun _ => None.

Definition tsconfigOf (b : string) (p : TsConfigPaths) : TsConfig :=
  {| compilerOptions := Some {| co_paths := Some p; co_baseUrl := Some b |};
     extends := None |}.

(** Scenario 1 of the specification: [/proj/tsconfig.json] maps [@app/*]
    to [src/*] from [baseUrl] [.]. *)
Definition appDisk : Disk :=
  mkDisk [ ("/proj/tsconfig.json", "app.tsconfig");
           ("/proj/src/utils.ts", "utils") ]
         [ "/proj"; "/proj/src" ].

Definition appParse (text : string) : option TsConfig :=
  if String.eqb text "app.tsconfig"
  then Some (tsconfigOf "." [("@app/*", ["src/*"])])
  else None.

Definition appHost (specifier : string) : option string :=
  if String.eqb specifier "/proj/src/utils" then Some "/proj/src/utils.ts"
  else None.

Definition appNode : Node :=
  posixNode "/proj" appDisk appParse noEngine appHost.

(** Scenario 3 of the specification: [packages/app] holds a vite config of
    its own next to its tsconfig. *)
Definition nestedDisk : Disk :=
  mkDisk [ ("/proj/tsconfig.json", "app.tsconfig");
           ("/proj/vite.config.ts", "vite");
           ("/proj/packages/app/tsconfig.json", "nested.tsconfig");
           ("/proj/packages/app/vite.config.ts", "vite");
           ("/proj/tools/tsconfig.json", "tools.tsconfig") ]
         [ "/proj"; "/proj/src"; "/proj/lib"; "/proj/scripts"; "/proj/tools";
           "/proj/packages"; "/proj/packages/app" ].

Definition nestedParse (text : string) : option TsConfig :=
  if String.eqb text "app.tsconfig"
  then Some (tsconfigOf "." [("@app/*", ["src/*"])])
  else if String.eqb text "nested.tsconfig"
  then Some (tsconfigOf "." [("@nested/*", ["lib/*"])])
  else if String.eqb text "tools.tsconfig"
  then Some (tsconfigOf "." [("@tools/*", ["scripts/*"])])
  else None.

Definition nestedNode : Node :=
  posixNode "/proj" nestedDisk nestedParse noEngine noHost.

(** A project whose tsconfig is not JSON. *)
Definition brokenDisk : Disk :=
  mkDisk [ ("/proj/tsconfig.json", "{ compilerOptions: ") ] [ "/proj" ].

Definition brokenNode : Node :=
  posixNode "/proj" brokenDisk noParse noEngine noHost.

(** The same project found at the root of the file system, where the
    root-only discovery looks. *)
Definition brokenRootDisk : Disk :=
  mkDisk [ ("/tsconfig.json", "{ compilerOptions: ") ] [ "/" ].

Definition brokenRootNode : Node :=
  posixNode "/" brokenRootDisk noParse noEngine noHost.

(** Scenario 4 of the specification: [missing/] is not on the disk. *)
Definition probeDisk : Disk :=
  mkDisk [] [ "/proj"; "/proj/src" ].

Definition probeNode : Node :=
  posixNode "/proj" probeDisk noParse noEngine noHost.

(** A disk with a directory whose name is the placeholder, letter for
    letter. *)
Definition literalDisk : Disk :=
  mkDisk [] [ "/proj"; "/proj/lib"; "/proj/lib/${configDir}";
              "/proj/lib/${configDir}/src" ].

Definition literalNode : Node :=
  posixNode "/proj" literalDisk noParse noEngine noHost.

(** Scenario 2 of the specification: the project's tsconfig extends the
    base config of a dependency, which declares its [baseUrl] from the
    placeholder. *)
Definition sharedDisk : Disk :=
  mkDisk [ ("/proj/tsconfig.json", "extending.tsconfig");
           ("/proj/node_modules/@acme/base.json", "base.tsconfig");
           ("/proj/lib/widgets.ts", "widgets") ]
         [ "/proj"; "/proj/lib"; "/proj/node_modules";
           "/proj/node_modules/@acme" ].

Definition sharedParse (text : string) : option TsConfig :=
  if String.eqb text "extending.tsconfig"
  then Some {| compilerOptions := None;
               extends := Some (ExtendsArray ["@acme/base"]) |}
  else if String.eqb text "base.tsconfig"
  then Some (tsconfigOf "${configDir}/lib" [("@shared/*", ["./*"])])
  else None.

Definition sharedHost (specifier : string) : option string :=
  if String.eqb specifier "/proj/lib/widgets" then Some "/proj/lib/widgets.ts"
  else None.

Definition sharedNode : Node :=
  posixNode "/proj" sharedDisk sharedParse noEngine sharedHost.

(** A host that resolves every specifier to itself. *)
Definition echoNode : Node :=
  posixNode "/proj" probeDisk noParse noEngine
    (fun specifier => Some specifier).

(** ** Vocabulary of the resolution hook *)

(** The specifier a rule hands to the host. *)
Definition rewritten (rule : ResolvedAlias) (source : string) : string :=
  JS.replace source (find rule) (replacement rule).

(** The rule's pattern matches the specifier. *)
Definition matches {node : Node} (rule : ResolvedAlias) (source : string)
    : Prop :=
  RegExp_test (find rule) source = Some true.

(** The rule does not intercept the specifier: its pattern does not match,
    or the host cannot resolve the rewritten specifier. *)
Definition declines {node : Node} (source : string) (rule : ResolvedAlias)
    : Prop :=
  RegExp_test (find rule) source = Some false
  \/ (matches rule source /\ this_resolve (rewritten rule source) = None).

(** A project that extends two base configs of dependencies, each with a
    [baseUrl] from the placeholder. *)
Definition twinDisk : Disk :=
  mkDisk [ ("/proj/tsconfig.json", "twin.tsconfig");
           ("/proj/node_modules/@acme/base.json", "base.tsconfig");
           ("/proj/node_modules/@acme/more.json", "more.tsconfig") ]
         [ "/proj"; "/proj/lib"; "/proj/more"; "/proj/node_modules";
           "/proj/node_modules/@acme" ].

Definition twinParse (text : string) : option TsConfig :=
  if String.eqb text "twin.tsconfig"
  then Some {| compilerOptions := None;
               extends := Some (ExtendsArray ["@acme/base"; "@acme/more"]) |}
  else if String.eqb text "base.tsconfig"
  then Some (tsconfigOf "${configDir}/lib" [("@shared/*", ["./*"])])
  else if String.eqb text "more.tsconfig"
  then Some (tsconfigOf "${configDir}/more" [("@more/*", ["./*"])])
  else None.

Definition twinNode : Node :=
  posixNode "/proj" twinDisk twinParse noEngine noHost.

(** ** Harvesting the host's alias table (option
       [generatePathsFromViteConfig])

    The closure of [resolveTsConfigPaths] also holds [aliasFromViteConfig]
    and the object [paths], which lives as long as the plugin. *)

(** [find: string | RegExp] of a vite alias. *)
Inductive AliasFind :=
| FindString (s : string)
| FindRegExp (source : string).

Record Alias := mkAlias {
  alias_find : AliasFind;
  alias_replacement : string
}.

(** [AliasOptions]: an array of aliases, or an object from names to
    replacements. *)
Inductive AliasOptions :=
| AliasArray (aliases : list Alias)
| AliasObject (entries : list (string * string)).

(** The own properties of [paths], oldest first; in the text of the
    document names that are array indices come before the others, an order
    nothing below depends on. *)
Fixpoint getProperty (paths : TsConfigPaths) (key : string)
    : option (list string) :=
  match paths with
  | [] => None
  | (k, v) :: rest => if String.eqb k key then Some v else getProperty rest key
  end.

Fixpoint assign (paths : TsConfigPaths) (key : string) (value : list string)
    : TsConfigPaths :=
  match paths with
  | [] => [(key, value)]
  | (k, v) :: rest =>
      if String.eqb k key then (k, value) :: rest
      else (k, v) :: assign rest key value
  end.

(** [paths[key] = value] for an array [value]: the key [__proto__] reaches
    the setter of [Object.prototype] and adds no own property. *)
Definition setProperty (paths : TsConfigPaths) (key : string)
    (value : list string) : TsConfigPaths :=
  if String.eqb key "__proto__" then paths else assign paths key value.

Fixpoint hasLineTerminator (s : string) : bool :=
  match s with
  | "" => false
  | String c r => isLineTerminator c || hasLineTerminator r
  end.

(** [/^.*\.*$/g.test(alias)] on the fresh object the literal evaluates to:
    any characters but line terminators, then dots, up to the end of the
    input. *)
Definition aliasIsFile_test (alias : string) : bool :=
  negb (hasLineTerminator alias).

Section Harvest.
Context {node : Node}.

(** [alias] in the loop of [configResolved] *)
Definition resolvedReplacement (root replacement : string) : string :=
  if JS.startsWith replacement "./" then path_resolve [root; replacement]
  else path_resolve [replacement].

(** The property an alias with a string [find] assigns: its name and its
    value. *)
Definition harvestedEntry (root find replacement : string)
    : string * list string :=
  let alias := resolvedReplacement root replacement in
  let aliasIsFile := aliasIsFile_test alias in
  (if aliasIsFile then find else find ++ "/*",
   [ if aliasIsFile then alias
     else if JS.endsWith alias "/" then alias ++ "*" else alias ++ "/*" ]).

(** The body of the loop over [aliasFromViteConfig]. *)
Definition harvestAlias (root : string) (paths : TsConfigPaths) (map : Alias)
    : TsConfigPaths :=
  match alias_find map with
  | FindRegExp _ => paths
  | FindString find =>
      let entry := harvestedEntry root find (alias_replacement map) in
      setProperty paths (fst entry) (snd entry)
  end.

Definition harvest (root : string) (paths : TsConfigPaths)
    (aliasFromViteConfig : list Alias) : TsConfigPaths :=
  List.fold_left (harvestAlias root) aliasFromViteConfig paths.

End Harvest.

(** ** Vocabulary of the walker *)

(** Every second element, beginning with the first. *)
Fixpoint everyOther {A : Type} (l : list A) : list A :=
  match l with
  | a :: _ :: rest => a :: everyOther rest
  | _ => l
  end.

(** Some target of the entry holds the placeholder. *)
Definition hasPlaceholderTarget (entry : string * list string) : Prop :=
  Exists (fun v => JS.includes v configDir = true) (snd entry).

(** The one target of the entry begins with the placeholder and holds no
    other. *)
Definition placeholderFirst (entry : string * list string) : Prop :=
  exists rest,
    snd entry = [configDir ++ rest] /\ JS.includes rest configDir = false.

(** An alias set the compiler can anchor: a non-empty [baseUrl], or entries
    that all have a target with the placeholder. *)
Definition usable (a : UnresolvedAlias) : Prop :=
  JS.truthy_opt (baseUrl a) = true
  \/ (paths a <> [] /\ Forall hasPlaceholderTarget (paths a)).

(** * Properties *)

(** ** Strings *)

Lemma take_drop (n : nat) (s : string) : JS.take n s ++ JS.drop n s = s.
Proof.
  revert s; induction n as [|n IH]; intros [|c s]; simpl; try reflexivity.
  now rewrite IH.
Qed.

Lemma append_empty_r (s : string) : s ++ "" = s.
Proof. induction s as [|c s IH]; simpl; [reflexivity | now rewrite IH]. Qed.

Lemma append_assoc (a b c : string) : (a ++ b) ++ c = a ++ (b ++ c).
Proof. induction a as [|x a IH]; simpl; [reflexivity | now rewrite IH]. Qed.

Lemma length_append (a b : string) :
  String.length (a ++ b) = String.length a + String.length b.
Proof. induction a as [|x a IH]; simpl; [reflexivity | now rewrite IH]. Qed.

Lemma drop_append (a b : string) : JS.drop (String.length a) (a ++ b) = b.
Proof. induction a as [|x a IH]; simpl; [now destruct b | exact IH]. Qed.

Lemma take_append (a b : string) : JS.take (String.length a) (a ++ b) = a.
Proof.
  induction a as [|x a IH]; simpl; [now destruct b | now rewrite IH].
Qed.

(** A string that ends with a suffix is its [slice] followed by the suffix. *)
Lemma endsWith_split (s suf : string) :
  JS.endsWith s suf = true ->
  s = JS.slice_to_neg s (String.length suf) ++ suf.
Proof.
  unfold JS.endsWith, JS.slice_to_neg; intros H.
  apply andb_true_iff in H as [_ H]. apply String.eqb_eq in H.
  set (n := String.length s - String.length suf) in *.
  transitivity (JS.take n s ++ JS.drop n s).
  - symmetry; apply take_drop.
  - now rewrite H.
Qed.

Lemma endsWith_append (stem suf : string) :
  JS.endsWith (stem ++ suf) suf = true.
Proof.
  unfold JS.endsWith. rewrite length_append. apply andb_true_iff; split.
  - apply Nat.leb_le; lia.
  - replace (String.length stem + String.length suf - String.length suf)
      with (String.length stem) by lia.
    rewrite drop_append. apply String.eqb_refl.
Qed.

Lemma slice_append (stem suf : string) :
  JS.slice_to_neg (stem ++ suf) (String.length suf) = stem.
Proof.
  unfold JS.slice_to_neg. rewrite length_append.
  replace (String.length stem + String.length suf - String.length suf)
    with (String.length stem) by lia.
  apply take_append.
Qed.

Lemma truthy_false (s : string) : JS.truthy s = false -> s = "".
Proof.
  unfold JS.truthy; intros H. apply negb_false_iff in H.
  now apply String.eqb_eq.
Qed.

(** ** The alias compiler, always-first-priority variant *)

Section FirstPriority.
Context {node : Node}.
Import ResolveTsConfigAliases.

Lemma resolveEntry_throws_TypeError root b entry e :
  resolveEntry root b entry = Throw e -> e = TypeError.
Proof.
  destruct entry as [pattern [|t remaps]]; simpl.
  - congruence.
  - destruct (whenTruthy (tryExtractFindPatternFromTsAlias t)); [|discriminate].
    destruct (whenTruthy (tryExtractFindPatternFromTsAlias pattern));
      [|discriminate].
    destruct (whenTruthy _); discriminate.
Qed.

Lemma resolveEntry_total root b pattern remaps :
  remaps <> [] ->
  exists rules, resolveEntry root b (pattern, remaps) = Ok rules.
Proof.
  destruct remaps as [|t remaps]; [congruence | intros _; simpl].
  destruct (whenTruthy (tryExtractFindPatternFromTsAlias t)); [|now eexists].
  destruct (whenTruthy (tryExtractFindPatternFromTsAlias pattern));
    [|now eexists].
  destruct (whenTruthy _); now eexists.
Qed.

Lemma entriesLoop_total root b entries :
  Forall (fun entry => snd entry <> []) entries ->
  forall acc, exists rules, entriesLoop root b entries acc = Ok rules.
Proof.
  induction 1 as [|[pattern remaps] entries Hne _ IH]; intros acc;
    cbn [entriesLoop].
  - now eexists.
  - destruct (resolveEntry_total root b pattern remaps Hne) as [rules ->].
    cbn [rbind]. apply IH.
Qed.

Lemma entriesLoop_throws root b entries :
  Exists (fun entry => snd entry = []) entries ->
  forall acc, entriesLoop root b entries acc = Throw TypeError.
Proof.
  induction 1 as [[pattern remaps] entries Hempty
                 | entry entries _ IH]; intros acc; cbn [entriesLoop].
  - simpl in Hempty; subst remaps. reflexivity.
  - destruct (resolveEntry root b entry) as [rules|e] eqn:E; cbn [rbind].
    + apply IH.
    + now rewrite (resolveEntry_throws_TypeError _ _ _ _ E).
Qed.

Lemma entriesLoop_throw_kind root b entries acc e :
  entriesLoop root b entries acc = Throw e -> e = TypeError.
Proof.
  revert acc; induction entries as [|entry entries IH]; intros acc;
    cbn [entriesLoop].
  - discriminate.
  - destruct (resolveEntry root b entry) as [rules|e'] eqn:E; cbn [rbind].
    + apply IH.
    + intros [= <-]. exact (resolveEntry_throws_TypeError _ _ _ _ E).
Qed.

Lemma aliasesLoop_total root aliases :
  Forall (fun a => Forall (fun entry => snd entry <> []) (paths a)) aliases ->
  forall acc, exists rules, aliasesLoop root aliases acc = Ok rules.
Proof.
  induction 1 as [|a aliases Ha _ IH]; intros acc; cbn [aliasesLoop].
  - now eexists.
  - destruct (entriesLoop_total root (baseUrl a) _ Ha acc) as [rules ->].
    cbn [rbind]. apply IH.
Qed.

Lemma aliasesLoop_throws root aliases :
  Exists (fun a => Exists (fun entry => snd entry = []) (paths a)) aliases ->
  forall acc, aliasesLoop root aliases acc = Throw TypeError.
Proof.
  induction 1 as [a aliases Ha | a aliases _ IH]; intros acc;
    cbn [aliasesLoop].
  - now rewrite (entriesLoop_throws root (baseUrl a) _ Ha).
  - destruct (entriesLoop root (baseUrl a) (paths a) acc) as [rules|e] eqn:E;
      cbn [rbind].
    + apply IH.
    + now rewrite (entriesLoop_throw_kind _ _ _ _ _ E).
Qed.

(** C9: the always-first-priority compiler returns a rule list whenever
    every pattern has at least one target, and throws a [TypeError] as soon
    as the alias sets hold a pattern mapped to an empty target array. *)
Theorem resolveAliases_total_iff_targets (root : string)
    (aliases : list UnresolvedAlias) :
  (Forall (fun a => Forall (fun entry => snd entry <> []) (paths a)) aliases ->
   exists rules, resolveAliases root aliases = Ok rules)
  /\ (Exists (fun a => Exists (fun entry => snd entry = []) (paths a)) aliases ->
      resolveAliases root aliases = Throw TypeError).
Proof.
  split; intros H.
  - apply aliasesLoop_total, H.
  - apply aliasesLoop_throws, H.
Qed.

End FirstPriority.

(** C9 at work: one target is enough for a result, none makes the call
    throw. *)
Lemma resolveAliases_total_iff_targets_witness :
  (exists rules,
     @ResolveTsConfigAliases.resolveAliases probeNode "/proj"
       [ {| baseUrl := Some "."; paths := [("@app/*", ["src/*"])] |} ]
     = Ok rules)
  /\ @ResolveTsConfigAliases.resolveAliases probeNode "/proj"
       [ {| baseUrl := Some "."; paths := [("@app/*", [])] |} ]
     = Throw TypeError.
Proof.
  split.
  - apply (proj1 (@resolveAliases_total_iff_targets probeNode "/proj" _)).
    repeat constructor; discriminate.
  - apply (proj2 (@resolveAliases_total_iff_targets probeNode "/proj" _)).
    repeat constructor.
Defined.

(** ** Picking the first entry a probe accepts *)

Lemma filter_none {A} (p : A -> bool) (l : list A) :
  Forall (fun x => p x = false) l -> List.filter p l = [].
Proof.
  induction 1 as [|x l Hx _ IH]; simpl; [reflexivity | now rewrite Hx].
Qed.

Lemma filter_map_head {A B} (f : A -> B) (p : B -> bool) (l : list A)
    (y : B) (rest : list B) :
  List.filter p (List.map f l) = y :: rest ->
  exists before t after,
    l = (before ++ t :: after)%list /\ y = f t /\ p (f t) = true
    /\ Forall (fun u => p (f u) = false) before.
Proof.
  induction l as [|a l IH]; simpl; [discriminate|].
  destruct (p (f a)) eqn:E.
  - intros [= <- _]. exists [], a, l. repeat split; auto.
  - intros H. destruct (IH H) as (before & t & after & -> & Hy & Hp & Hb).
    exists (a :: before), t, after. repeat split; auto.
Qed.

Lemma filter_map_first {A B} (f : A -> B) (p : B -> bool)
    (before : list A) (t : A) (after : list A) :
  Forall (fun u => p (f u) = false) before -> p (f t) = true ->
  List.filter p (List.map f (before ++ t :: after)%list)
  = f t :: List.filter p (List.map f after).
Proof.
  induction 1 as [|u before Hu _ IH]; intros Ht; simpl.
  - now rewrite Ht.
  - rewrite Hu. now apply IH.
Qed.

(** ** The alias compiler, both variants *)

Section Compilers.
Context {node : Node}.

Lemma removeSuffix_wildcard (stem : string) :
  ResolveTsConfigPaths.removeSuffixPatternFromTsAlias (stem ++ tsAliasSuffix)
  = stem.
Proof.
  unfold ResolveTsConfigPaths.removeSuffixPatternFromTsAlias.
  now rewrite endsWith_append, slice_append.
Qed.

Lemma removeSuffix_other (tsAlias : string) :
  JS.endsWith tsAlias tsAliasSuffix = false ->
  ResolveTsConfigPaths.removeSuffixPatternFromTsAlias tsAlias = tsAlias.
Proof.
  unfold ResolveTsConfigPaths.removeSuffixPatternFromTsAlias. now intros ->.
Qed.

Lemma tryExtract_wildcard (stem : string) :
  ResolveTsConfigAliases.tryExtractFindPatternFromTsAlias
    (stem ++ tsAliasSuffix) = Some stem.
Proof.
  unfold ResolveTsConfigAliases.tryExtractFindPatternFromTsAlias.
  now rewrite endsWith_append, slice_append.
Qed.

Lemma tryExtract_Some (tsAlias stem : string) :
  ResolveTsConfigAliases.tryExtractFindPatternFromTsAlias tsAlias = Some stem ->
  tsAlias = stem ++ tsAliasSuffix.
Proof.
  unfold ResolveTsConfigAliases.tryExtractFindPatternFromTsAlias.
  destruct (JS.endsWith tsAlias tsAliasSuffix) eqn:E; [|discriminate].
  intros [= <-]. exact (endsWith_split tsAlias tsAliasSuffix E).
Qed.

Lemma whenTruthy_Some (o : option string) (s : string) :
  ResolveTsConfigAliases.whenTruthy o = Some s -> o = Some s /\ s <> "".
Proof.
  destruct o as [x|]; simpl; [|discriminate].
  destruct (JS.truthy x) eqn:E; [|discriminate].
  intros [= <-]. split; [reflexivity|]. intros ->. discriminate.
Qed.

(** What an entry of the existence-checking variant pushes, by the pattern
    with its suffix removed. *)
Lemma probing_entry_rules (root : string) (b : option string)
    (pattern : string) (remaps : list string) (r : ResolvedAlias) :
  In r (ResolveTsConfigPaths.resolveEntry root b (pattern, remaps)) ->
  find r = ResolveTsConfigPaths.removeSuffixPatternFromTsAlias pattern
  /\ exists before t after,
       remaps = (before ++ t :: after)%list
       /\ replacement r
          = ResolveTsConfigPaths.resolveMap
              (ResolveTsConfigPaths.effectiveBaseUrl root b) t
       /\ existsSync (replacement r) = true
       /\ Forall
            (fun u =>
               existsSync
                 (ResolveTsConfigPaths.resolveMap
                    (ResolveTsConfigPaths.effectiveBaseUrl root b) u) = false)
            before.
Proof.
  unfold ResolveTsConfigPaths.resolveEntry, ResolveTsConfigPaths.resolveMaps.
  destruct (negb (JS.truthy _)); [intros []|].
  destruct (List.filter _ _) as [|m rest] eqn:E; [intros []|].
  destruct (negb (JS.truthy m)); [intros []|].
  intros [<-|[]]; simpl. split; [reflexivity|].
  destruct (filter_map_head _ _ _ _ _ E)
    as (before & t & after & -> & -> & Hp & Hb).
  exists before, t, after. auto.
Qed.

Lemma probing_entry_none (root : string) (b : option string)
    (pattern : string) (remaps : list string) :
  ResolveTsConfigPaths.removeSuffixPatternFromTsAlias pattern = ""
  \/ Forall
       (fun t =>
          existsSync
            (ResolveTsConfigPaths.resolveMap
               (ResolveTsConfigPaths.effectiveBaseUrl root b) t) = false)
       remaps ->
  ResolveTsConfigPaths.resolveEntry root b (pattern, remaps) = [].
Proof.
  unfold ResolveTsConfigPaths.resolveEntry, ResolveTsConfigPaths.resolveMaps.
  intros [-> | H]; [reflexivity|].
  destruct (negb (JS.truthy _)); [reflexivity|].
  rewrite (filter_none existsSync).
  - reflexivity.
  - apply Forall_forall. intros y Hy. apply in_map_iff in Hy as (t & <- & Ht).
    rewrite Forall_forall in H. now apply H.
Qed.

Lemma probing_entry_first (root : string) (b : option string)
    (pattern : string) (before : list string) (t : string)
    (after : list string) :
  let base := ResolveTsConfigPaths.effectiveBaseUrl root b in
  ResolveTsConfigPaths.removeSuffixPatternFromTsAlias pattern <> "" ->
  Forall
    (fun u => existsSync (ResolveTsConfigPaths.resolveMap base u) = false)
    before ->
  existsSync (ResolveTsConfigPaths.resolveMap base t) = true ->
  ResolveTsConfigPaths.resolveMap base t <> "" ->
  ResolveTsConfigPaths.resolveEntry root b
    (pattern, (before ++ t :: after)%list)
  = [ {| find := ResolveTsConfigPaths.removeSuffixPatternFromTsAlias pattern;
         replacement := ResolveTsConfigPaths.resolveMap base t |} ].
Proof.
  intros base Hstem Hb Ht Hne.
  unfold ResolveTsConfigPaths.resolveEntry, ResolveTsConfigPaths.resolveMaps.
  fold base.
  destruct (JS.truthy _) eqn:E1;
    [|now apply truthy_false in E1]. simpl negb.
  rewrite (filter_map_first _ existsSync before t after Hb Ht).
  destruct (JS.truthy (ResolveTsConfigPaths.resolveMap base t)) eqn:E2;
    [reflexivity | now apply truthy_false in E2].
Qed.

(** What an entry of the always-first-priority variant pushes: at most one
    rule, built from the first target alone. *)
Lemma first_priority_entry_rules (root : string) (b : option string)
    (pattern t : string) (rest : list string) (rules : list ResolvedAlias) :
  ResolveTsConfigAliases.resolveEntry root b (pattern, t :: rest) = Ok rules ->
  rules = []
  \/ exists stem tstem base sub,
       pattern = stem ++ tsAliasSuffix /\ stem <> ""
       /\ t = tstem ++ tsAliasSuffix /\ tstem <> ""
       /\ (sub = "" \/ sub = root)
       /\ (base = root
           \/ exists bu, b = Some bu
                /\ base = replace_configDir
                            (if String.eqb bu "." then root else bu) root)
       /\ rules
          = [ {| find := stem;
                 replacement :=
                   path_resolve
                     [path_join [base; replace_configDir tstem sub]] |} ].
Proof.
  cbn [ResolveTsConfigAliases.resolveEntry].
  destruct (ResolveTsConfigAliases.whenTruthy
              (ResolveTsConfigAliases.tryExtractFindPatternFromTsAlias t))
    as [tstem|] eqn:Et; [|intros [= <-]; now left].
  destruct (ResolveTsConfigAliases.whenTruthy
              (ResolveTsConfigAliases.tryExtractFindPatternFromTsAlias pattern))
    as [stem|] eqn:Ep; [|intros [= <-]; now left].
  apply whenTruthy_Some in Et as [Et Htstem].
  apply whenTruthy_Some in Ep as [Ep Hstem].
  apply tryExtract_Some in Et, Ep.
  intros H. right. exists stem, tstem.
  destruct (ResolveTsConfigAliases.whenTruthy _) as [bu'|] eqn:Eb.
  - apply whenTruthy_Some in Eb as [Eb _].
    exists (replace_configDir bu' root),
      (if JS.includes bu' configDir then "" else root).
    repeat split; auto.
    + destruct (JS.includes bu' configDir); auto.
    + destruct b as [bu|]; [|discriminate].
      right. exists bu. split; [reflexivity|].
      destruct (String.eqb bu "."); now injection Eb as <-.
    + injection H as <-. now destruct (JS.includes bu' configDir).
  - exists root, "". repeat split; auto. now injection H as <-.
Qed.

End Compilers.

Section Selection.
Context {node : Node}.

(** C1, as the code has it: a pattern that does not end with the wildcard
    suffix yields no rule in the always-first-priority variant; the
    existence-checking variant keeps such a pattern whole as the [find] of
    its rule, which takes the first resolved target found on the disk, and
    yields no rule for the empty pattern or when no resolved target is on
    the disk. *)
Theorem pattern_without_wildcard_suffix (root : string) (b : option string)
    (pattern : string) (remaps : list string) :
  JS.endsWith pattern tsAliasSuffix = false ->
  (forall rules,
     ResolveTsConfigAliases.resolveEntry root b (pattern, remaps) = Ok rules ->
     rules = [])
  /\ (remaps <> [] ->
      ResolveTsConfigAliases.resolveEntry root b (pattern, remaps) = Ok [])
  /\ (forall r,
        In r (ResolveTsConfigPaths.resolveEntry root b (pattern, remaps)) ->
        find r = pattern /\ existsSync (replacement r) = true)
  /\ (pattern = ""
      \/ Forall
           (fun t =>
              existsSync
                (ResolveTsConfigPaths.resolveMap
                   (ResolveTsConfigPaths.effectiveBaseUrl root b) t) = false)
           remaps ->
      ResolveTsConfigPaths.resolveEntry root b (pattern, remaps) = [])
  /\ (forall before t after,
        let resolved :=
          ResolveTsConfigPaths.resolveMap
            (ResolveTsConfigPaths.effectiveBaseUrl root b) in
        remaps = (before ++ t :: after)%list ->
        pattern <> "" ->
        Forall (fun u => existsSync (resolved u) = false) before ->
        existsSync (resolved t) = true ->
        resolved t <> "" ->
        ResolveTsConfigPaths.resolveEntry root b (pattern, remaps)
        = [ {| find := pattern; replacement := resolved t |} ]).
Proof.
  intros Hsuffix.
  assert (Hfirst : forall t rest rules,
             ResolveTsConfigAliases.resolveEntry root b (pattern, t :: rest)
             = Ok rules -> rules = []).
  { intros t rest rules H.
    destruct (first_priority_entry_rules _ _ _ _ _ _ H)
      as [-> | (stem & _ & _ & _ & Hp & _)]; [reflexivity|].
    subst pattern. now rewrite endsWith_append in Hsuffix. }
  repeat split.
  - intros rules H. destruct remaps as [|t rest]; [discriminate|].
    eapply Hfirst, H.
  - intros Hne. destruct remaps as [|t rest]; [congruence|].
    destruct (resolveEntry_total root b pattern (t :: rest) Hne) as [rules H].
    now rewrite H, (Hfirst _ _ _ H).
  - apply probing_entry_rules in H as [H _].
    now rewrite H, removeSuffix_other.
  - now apply probing_entry_rules in H as (_ & _ & _ & _ & _ & _ & H & _).
  - intros H. apply probing_entry_none.
    rewrite removeSuffix_other by assumption. exact H.
  - intros before t after resolved -> Hpattern Hb Ht Hnonempty.
    rewrite <- (removeSuffix_other pattern Hsuffix) at 2.
    apply probing_entry_first; auto.
    now rewrite removeSuffix_other.
Qed.





End Selection.

(** C1 refuted as stated: the existence-checking variant compiles a rule
    from the pattern [@app], which has no wildcard suffix. *)
Lemma pattern_without_suffix_compiled :
  JS.endsWith "@app" tsAliasSuffix = false
  /\ @ResolveTsConfigPaths.resolveAliases probeNode "/proj"
       [ {| baseUrl := Some "."; paths := [("@app", ["src/*"])] |} ]
     = [ {| find := "@app"; replacement := "/proj/src" |} ].
Proof. split; reflexivity. Qed.

(** C1 as amended, on the same entry: no rule from the first-priority
    variant, and the whole pattern as [find] in the other. *)
Lemma pattern_without_wildcard_suffix_witness :
  @ResolveTsConfigAliases.resolveEntry probeNode "/proj" (Some ".")
    ("@app", ["src/*"]) = Ok []
  /\ find {| find := "@app"; replacement := "/proj/src" |} = "@app"
  /\ @existsSync probeNode "/proj/src" = true.
Proof.
  destruct (@pattern_without_wildcard_suffix probeNode "/proj" (Some ".")
              "@app" ["src/*"] eq_refl) as (_ & H2 & H3 & _ & _).
  split.
  - apply H2. discriminate.
  - exact (H3 {| find := "@app"; replacement := "/proj/src" |}
             (or_introl eq_refl)).
Defined.



(** ** The resolution hook *)

Section Hook.
Context {node : Node}.

Lemma resolveId_match (rule : ResolvedAlias) (rest : list ResolvedAlias)
    (source id : string) :
  matches rule source ->
  this_resolve (rewritten rule source) = Some id ->
  resolveId (rule :: rest) source = Ok (Some id).
Proof.
  unfold matches, rewritten. destruct rule as [f r]; simpl.
  now intros -> ->.
Qed.

Lemma resolveId_decline (rule : ResolvedAlias) (rest : list ResolvedAlias)
    (source : string) :
  declines source rule ->
  resolveId (rule :: rest) source = resolveId rest source.
Proof.
  unfold declines, matches, rewritten. destruct rule as [f r]; simpl.
  now intros [-> | [-> ->]].
Qed.

Lemma resolveId_skip (before rules : list ResolvedAlias) (source : string) :
  Forall (declines source) before ->
  resolveId (before ++ rules)%list source = resolveId rules source.
Proof.
  induction 1 as [|rule before H _ IH]; [reflexivity|].
  rewrite <- app_comm_cons, resolveId_decline; assumption.
Qed.

(** The rules behind an intercepting rule are never consulted. *)
Lemma resolveId_cut (before : list ResolvedAlias) (rule : ResolvedAlias)
    (after : list ResolvedAlias) (source id : string) :
  matches rule source ->
  this_resolve (rewritten rule source) = Some id ->
  resolveId (before ++ rule :: after)%list source
  = resolveId (before ++ [rule])%list source.
Proof.
  intros Hm Hr. induction before as [|[f r] before IH].
  - cbn [app].
    now rewrite (resolveId_match rule after source id),
                (resolveId_match rule [] source id).
  - simpl. destruct (RegExp_test f source) as [[|]|];
      [ destruct (this_resolve (JS.replace source f r));
          [reflexivity | exact IH]
      | exact IH
      | reflexivity ].
Qed.

(** C5: with two rules [A] then [B] of the same [find] in the list, a
    specifier that matches it and whose rewriting by [A] the host resolves
    is never answered from [B]: the hook answers as if the list ended with
    [A], and with the host's answer for [A]'s rewriting when no rule before
    [A] intercepts. *)
Theorem first_match_wins (before : list ResolvedAlias) (A : ResolvedAlias)
    (between : list ResolvedAlias) (B : ResolvedAlias)
    (after : list ResolvedAlias) (source id : string) :
  find B = find A ->
  matches A source ->
  this_resolve (rewritten A source) = Some id ->
  matches B source
  /\ resolveId (before ++ A :: between ++ B :: after)%list source
     = resolveId (before ++ [A])%list source
  /\ (Forall (declines source) before ->
      resolveId (before ++ A :: between ++ B :: after)%list source
      = Ok (Some id)).
Proof.
  intros Hfind Hm Hr. repeat split.
  - unfold matches in *. now rewrite Hfind.
  - now apply resolveId_cut with id.
  - intros Hb. rewrite resolveId_skip by assumption.
    now apply resolveId_match.
Qed.


End Hook.

(** C5 on two rules for [@app]: the answer is built from the first. *)
Lemma first_match_wins_witness :
  @resolveId echoNode
    [ {| find := "@app"; replacement := "/proj/src" |};
      {| find := "@app"; replacement := "/proj/lib" |} ]
    "@app/utils"
  = Ok (Some "/proj/src/utils").
Proof.
  apply (proj2 (proj2
    (@first_match_wins echoNode []
       {| find := "@app"; replacement := "/proj/src" |} []
       {| find := "@app"; replacement := "/proj/lib" |} []
       "@app/utils" "/proj/src/utils" eq_refl eq_refl eq_refl))).
  constructor.
Defined.


(** ** The pattern a rule's [find] is read as *)

Lemma syntax_character_dot (c : ascii) :
  isSyntaxCharacter c = false -> Ascii.eqb c "." = false.
Proof.
  intros H. destruct (Ascii.eqb c ".") eqn:E; [|reflexivity].
  apply Ascii.eqb_eq in E. subst c. discriminate.
Qed.

Lemma plain_plainOrDot (pattern : string) :
  plain pattern = true -> plainOrDot pattern = true.
Proof.
  induction pattern as [|c r IH]; simpl; [reflexivity|].
  intros H. apply andb_true_iff in H as [-> H].
  now rewrite orb_true_r, IH.
Qed.

(** A pattern without syntax characters matches at the head of a subject
    exactly when it is a prefix of it. *)
Lemma matchHere_plain (pattern subject : string) :
  plain pattern = true ->
  matchHere pattern subject = String.prefix pattern subject.
Proof.
  revert subject. induction pattern as [|p r IH]; intros subject; simpl.
  - now destruct subject.
  - intros H. apply andb_true_iff in H as [Hp Hr].
    apply negb_true_iff, syntax_character_dot in Hp.
    destruct subject as [|c s']; [reflexivity|].
    cbn [matchHere String.prefix]. rewrite Hp.
    destruct (ascii_dec p c) as [Heq|Hne].
    + subst c. rewrite Ascii.eqb_refl. simpl. now apply IH.
    + apply Ascii.eqb_neq in Hne. now rewrite Hne.
Qed.

Lemma includes_cons (c : ascii) (s t : string) :
  JS.includes (String c s) t
  = String.prefix t (String c s) || JS.includes s t.
Proof.
  unfold JS.includes. cbn [JS.indexOf].
  destruct (String.prefix t (String c s)); [reflexivity|].
  now destruct (JS.indexOf s t).
Qed.

(** ... and matches somewhere in it exactly when the subject includes it. *)
Lemma search_plain (pattern subject : string) :
  plain pattern = true ->
  search pattern subject = JS.includes subject pattern.
Proof.
  intros H. induction subject as [|c s IH].
  - cbn [search]. rewrite matchHere_plain by assumption.
    unfold JS.includes. cbn [JS.indexOf].
    destruct (String.prefix pattern ""); reflexivity.
  - cbn [search]. rewrite includes_cons, IH.
    now rewrite matchHere_plain by assumption.
Qed.

Lemma fragmentEngine_decides cwd d parse beyond host :
  @ecmaOnFragment (posixNode cwd d parse beyond host).
Proof.
  intros pattern subject H. simpl. unfold fragmentEngine. now rewrite H.
Qed.

Section Pattern.
Context {node : Node}.

(** C10: a [find] free of syntax characters matches a specifier that holds
    it anywhere, and the specifier handed to the host has its first
    occurrence replaced: [x@app/y] is matched by [@app] and rewritten in
    its interior. A [find] with a dot is matched as a pattern, and [abc],
    which [a.c] matches but does not occur in, goes to the host as it is. *)
Theorem find_is_an_unanchored_pattern :
  ecmaOnFragment ->
  (forall f repl rest source,
     plain f = true ->
     resolveId ({| find := f; replacement := repl |} :: rest) source
     = if JS.includes source f then
         match this_resolve (JS.replace source f repl) with
         | Some id => Ok (Some id)
         | None => resolveId rest source
         end
       else resolveId rest source)
  /\ (forall repl rest,
        resolveId ({| find := "@app"; replacement := repl |} :: rest) "x@app/y"
        = match this_resolve
                  ("x" ++ JS.GetSubstitution "@app" "x@app/y" 1 repl ++ "/y")
          with
          | Some id => Ok (Some id)
          | None => resolveId rest "x@app/y"
          end)
  /\ (forall repl rest,
        resolveId ({| find := "a.c"; replacement := repl |} :: rest) "abc"
        = match this_resolve "abc" with
          | Some id => Ok (Some id)
          | None => resolveId rest "abc"
          end).
Proof.
  intros Hecma. repeat split.
  - intros f repl rest source Hplain. cbn [resolveId].
    rewrite (Hecma f source (plain_plainOrDot f Hplain)).
    now rewrite search_plain by assumption.
  - intros repl rest. cbn [resolveId].
    now rewrite (Hecma "@app" "x@app/y" eq_refl).
  - intros repl rest. cbn [resolveId].
    now rewrite (Hecma "a.c" "abc" eq_refl).
Qed.

End Pattern.

(** C10 with a host that resolves every specifier to itself. *)
Lemma find_is_an_unanchored_pattern_witness :
  @resolveId echoNode [ {| find := "@app"; replacement := "/proj/src" |} ]
    "x@app/y"
  = Ok (Some "x/proj/src/y").
Proof.
  exact (proj1 (proj2 (@find_is_an_unanchored_pattern echoNode
                         (fragmentEngine_decides _ _ _ _ _)))
           "/proj/src" []).
Defined.

(** ** The config reader and the configuration-resolve phase *)

Section Reader.
Context {node : Node}.

Lemma getRecursivePaths_throws (root tsConfigPath : string) (e : Error)
    (li : lastIndex) :
  resolveTsConfigPath tsConfigPath = Throw e ->
  getRecursivePathsFromTsConfig root tsConfigPath li = Throw e.
Proof.
  intros H. unfold getRecursivePathsFromTsConfig, bind, lift. now rewrite H.
Qed.

Lemma collectUnresolved_throws (root : string) (tsConfigFiles : list string)
    (tsConfigPath : string) (e : Error) :
  In tsConfigPath tsConfigFiles ->
  resolveTsConfigPath tsConfigPath = Throw e ->
  forall unresolvedAlias li,
  exists e', collectUnresolved root tsConfigFiles unresolvedAlias li = Throw e'.
Proof.
  intros Hin Hthrow.
  induction tsConfigFiles as [|f fs IH]; [destruct Hin|].
  intros acc li. cbn [collectUnresolved]. unfold bind at 1.
  destruct Hin as [-> | Hin].
  - rewrite (getRecursivePaths_throws root _ e li Hthrow). now exists e.
  - destruct (getRecursivePathsFromTsConfig root f li) as [[found li']|e'].
    + apply IH, Hin.
    + now exists e'.
Qed.

Lemma extendsLoop_throws (root : string) (entries : list string)
    (extendsPath : string) (e : Error) :
  In extendsPath entries ->
  resolveTsConfigPath (extendsTarget root extendsPath) = Throw e ->
  forall aliases li,
  exists e', extendsLoop root entries aliases li = Throw e'.
Proof.
  intros Hin Hthrow.
  induction entries as [|q qs IH]; [destruct Hin|].
  intros aliases li. cbn [extendsLoop]. unfold bind at 1, lift.
  destruct Hin as [-> | Hin].
  - rewrite Hthrow. now exists e.
  - destruct (resolveTsConfigPath (extendsTarget root q)) as [c|e'];
      [|now exists e'].
    unfold bind at 1.
    destruct (extendsContribution c li) as [[contribution li']|e'];
      [|now exists e'].
    apply IH, Hin.
Qed.

(** C7: the reader returns nothing, without an error, for a path at which
    no file exists, and throws for a file whose text [JSON.parse] rejects;
    when that file is among the discovered ones, [configResolved] throws in
    both variants and so yields no rule list. *)
Theorem reader_missing_or_malformed (tsConfigPath : string) :
  (existsSync (path_resolve [path_resolve [tsConfigPath]]) = false ->
   resolveTsConfigPath tsConfigPath = Ok None)
  /\ (forall text,
        existsSync (path_resolve [path_resolve [tsConfigPath]]) = true ->
        readFileSync (path_resolve [tsConfigPath]) = Some text ->
        JSON_parse text = None ->
        resolveTsConfigPath tsConfigPath = Throw SyntaxError
        /\ (forall root li,
              getRecursivePathsFromTsConfig root tsConfigPath li
              = Throw SyntaxError)
        /\ (forall root li,
              In tsConfigPath
                 (ResolveTsConfigPaths.tsConfigFiles
                    (match root with Some r => r | None => process_cwd end)) ->
              exists e, ResolveTsConfigPaths.configResolved root li = Throw e)
        /\ (forall root li,
              In tsConfigPath
                 (ResolveTsConfigAliases.tsConfigFiles
                    (match root with Some r => r | None => process_cwd end)) ->
              exists e, ResolveTsConfigAliases.configResolved root li = Throw e)).
Proof.
  split.
  - intros H. unfold resolveTsConfigPath. now rewrite H.
  - intros text Hexists Hread Hparse.
    assert (Hthrow : resolveTsConfigPath tsConfigPath = Throw SyntaxError).
    { unfold resolveTsConfigPath. now rewrite Hexists, Hread, Hparse. }
    repeat split.
    + exact Hthrow.
    + intros root li. now apply getRecursivePaths_throws.
    + intros root li Hin.
      unfold ResolveTsConfigPaths.configResolved.
      set (r := match root with Some r => r | None => process_cwd end) in *.
      destruct (collectUnresolved_throws r _ _ _ Hin Hthrow [] li) as [e ->].
      now exists e.
    + intros root li Hin.
      unfold ResolveTsConfigAliases.configResolved.
      set (r := match root with Some r => r | None => process_cwd end) in *.
      destruct (collectUnresolved_throws r _ _ _ Hin Hthrow [] li) as [e ->].
      now exists e.
Qed.

End Reader.

(** C7 on a project without a tsconfig where one is asked for, and on one
    whose tsconfig is not JSON. *)
Lemma reader_missing_or_malformed_witness :
  @resolveTsConfigPath brokenNode "/proj/tsconfig.base.json" = Ok None
  /\ @resolveTsConfigPath brokenNode "/proj/tsconfig.json" = Throw SyntaxError
  /\ (exists e,
        @ResolveTsConfigAliases.configResolved brokenNode (Some "/proj") 0
        = Throw e)
  /\ (exists e,
        @ResolveTsConfigPaths.configResolved brokenRootNode (Some "/") 0
        = Throw e).
Proof.
  split; [|split; [|split]].
  - exact (proj1 (@reader_missing_or_malformed brokenNode
                    "/proj/tsconfig.base.json") eq_refl).
  - exact (proj1 (proj2 (@reader_missing_or_malformed brokenNode
                           "/proj/tsconfig.json")
                    "{ compilerOptions: " eq_refl eq_refl eq_refl)).
  - refine (proj2 (proj2 (proj2 (proj2 (@reader_missing_or_malformed brokenNode
                           "/proj/tsconfig.json")
                    "{ compilerOptions: " eq_refl eq_refl eq_refl)))
              (Some "/proj") 0 _).
    vm_compute. now left.
  - refine (proj1 (proj2 (proj2 (proj2 (@reader_missing_or_malformed
                           brokenRootNode "/tsconfig.json")
                    "{ compilerOptions: " eq_refl eq_refl eq_refl)))
              (Some "/") 0 _).
    vm_compute. now left.
Defined.

(** ** The inheritance walker *)

Section Walker.
Context {node : Node}.

Lemma indexOf_drop_none (t : string) (n : nat) (s : string) :
  JS.indexOf s t = None -> JS.indexOf (JS.drop n s) t = None.
Proof.
  revert s. induction n as [|n IH]; intros s H.
  - now destruct s.
  - destruct s as [|c s']; [exact H|]. cbn [JS.drop]. apply IH.
    cbn [JS.indexOf] in H.
    destruct (String.prefix t (String c s')); [discriminate|].
    now destruct (JS.indexOf s' t).
Qed.

(** On a string without the placeholder [test] fails from every
    [lastIndex], and resets it. *)
Lemma test_without_placeholder (s : string) (li : lastIndex) :
  JS.includes s configDir = false -> configDirRegex_test li s = (false, 0).
Proof.
  unfold JS.includes, configDirRegex_test. intros H.
  destruct (JS.indexOf s configDir) eqn:E; [discriminate|].
  destruct (Nat.leb li (String.length s)); [|reflexivity].
  now rewrite (indexOf_drop_none configDir li s E).
Qed.

Lemma filterValues_without_placeholder (values : list string) :
  Forall (fun v => JS.includes v configDir = false) values ->
  forall li, exists li', filterValues values li = Ok ([], li').
Proof.
  induction 1 as [|v vs Hv _ IH]; intros li; cbn [filterValues].
  - now exists li.
  - unfold bind at 1, test. rewrite (test_without_placeholder v li Hv).
    unfold bind. destruct (IH 0) as [li' ->]. now exists li'.
Qed.

Lemma filterEntries_without_placeholder (entries : TsConfigPaths) :
  Forall
    (fun entry => Forall (fun v => JS.includes v configDir = false) (snd entry))
    entries ->
  forall li, exists li', filterEntries entries li = Ok (([], false), li').
Proof.
  induction 1 as [|[pattern values] es Hv _ IH]; intros li;
    cbn [filterEntries].
  - now exists li.
  - unfold bind at 1.
    destruct (filterValues_without_placeholder values Hv li) as [li1 ->].
    unfold bind. destruct (IH li1) as [li2 ->]. now exists li2.
Qed.

Lemma aliasesLoop_app (root : string) (l1 l2 : list UnresolvedAlias)
    (acc : list ResolvedAlias) :
  ResolveTsConfigAliases.aliasesLoop root (l1 ++ l2)%list acc
  = rbind (ResolveTsConfigAliases.aliasesLoop root l1 acc)
      (ResolveTsConfigAliases.aliasesLoop root l2).
Proof.
  revert acc. induction l1 as [|a l1 IH]; intros acc; [reflexivity|].
  cbn [app ResolveTsConfigAliases.aliasesLoop].
  destruct (ResolveTsConfigAliases.entriesLoop _ _ _ _); [apply IH|reflexivity].
Qed.

(** C4: a parent config with no placeholder in its [baseUrl] nor in any of
    its targets adds at most an alias set with no entry, whatever
    [lastIndex] the regular expression is left with; compiling the alias
    sets with that contribution gives the rules compiled without it, in
    both variants. *)
Theorem parent_without_placeholder (root : string) (parent : option TsConfig)
    (li : lastIndex) :
  (forall bu, cfg_baseUrl parent = Some bu ->
              JS.includes bu configDir = false) ->
  (forall ps, cfg_paths parent = Some ps ->
     Forall
       (fun entry =>
          Forall (fun v => JS.includes v configDir = false) (snd entry))
       ps) ->
  exists contribution li',
    extendsContribution parent li = Ok (contribution, li')
    /\ (forall a, contribution = Some a -> paths a = [])
    /\ (forall aliases,
          ResolveTsConfigPaths.resolveAliases root
            (aliases ++ pushed contribution)%list
          = ResolveTsConfigPaths.resolveAliases root aliases)
    /\ (forall aliases,
          ResolveTsConfigAliases.resolveAliases root
            (aliases ++ pushed contribution)%list
          = ResolveTsConfigAliases.resolveAliases root aliases).
Proof.
  intros Hbase Hpaths.
  assert (Hcompile : forall contribution,
            (forall a, contribution = Some a -> paths a = []) ->
            (forall aliases,
               ResolveTsConfigPaths.resolveAliases root
                 (aliases ++ pushed contribution)%list
               = ResolveTsConfigPaths.resolveAliases root aliases)
            /\ (forall aliases,
                  ResolveTsConfigAliases.resolveAliases root
                    (aliases ++ pushed contribution)%list
                  = ResolveTsConfigAliases.resolveAliases root aliases)).
  { intros [a|] Ha; split; intros aliases; cbn [pushed];
      try now rewrite app_nil_r.
    - unfold ResolveTsConfigPaths.resolveAliases.
      rewrite flat_map_app. cbn [flat_map]. rewrite (Ha a eq_refl).
      cbn [flat_map]. now rewrite !app_nil_r.
    - unfold ResolveTsConfigAliases.resolveAliases. rewrite aliasesLoop_app.
      destruct (ResolveTsConfigAliases.aliasesLoop root aliases [])
        as [rules|e]; [|reflexivity].
      cbn [rbind ResolveTsConfigAliases.aliasesLoop].
      now rewrite (Ha a eq_refl). }
  assert (Htest : configDirRegex_test li (JS.String_of (cfg_baseUrl parent))
                  = (false, 0)).
  { apply test_without_placeholder.
    destruct (cfg_baseUrl parent) as [bu|]; [now apply Hbase | reflexivity]. }
  unfold extendsContribution, bind at 1, test. rewrite Htest.
  destruct (cfg_paths parent) as [ps|] eqn:Eps.
  - unfold bind.
    destruct (filterEntries_without_placeholder ps (Hpaths ps eq_refl) 0)
      as [li' ->].
    cbn [fst snd negb andb].
    destruct (negb (JS.truthy_opt (cfg_baseUrl parent)) && true).
    + exists None, li'. split; [reflexivity|].
      split; [discriminate | apply Hcompile; discriminate].
    + eexists (Some _), li'. split; [reflexivity|].
      assert (Ha : forall a,
                 Some {| baseUrl := cfg_baseUrl parent; paths := [] |} = Some a ->
                 paths a = []) by (now intros a [= <-]).
      split; [exact Ha | apply Hcompile, Ha].
  - exists None, 0. split; [reflexivity|].
    split; [discriminate | apply Hcompile; discriminate].
Qed.

End Walker.

(** C4 on a dependency's base config that maps [@lib/*] from an ordinary
    [baseUrl]: its alias set arrives empty. *)
Lemma parent_without_placeholder_witness :
  extendsContribution (Some (tsconfigOf "./src" [("@lib/*", ["lib/*"])])) 12
  = Ok (Some {| baseUrl := Some "./src"; paths := [] |}, 0)
  /\ @ResolveTsConfigAliases.resolveAliases probeNode "/proj"
       [ {| baseUrl := Some "./src"; paths := [] |} ] = Ok [].
Proof.
  destruct (@parent_without_placeholder probeNode "/proj"
              (Some (tsconfigOf "./src" [("@lib/*", ["lib/*"])])) 12)
    as (contribution & li' & H & _ & _ & H2).
  - intros bu [= <-]. reflexivity.
  - intros ps [= <-]. repeat constructor.
  - split; [reflexivity|].
    injection H as <- _. exact (H2 []).
Defined.

(** ** Discovery *)

Section Discovery.
Context {node : Node}.

(** The directory probed for a vite config is the parent of the directory
    the tsconfig lies in. *)
Lemma keepTsConfig_false (root tsConfigPath : string) :
  keepTsConfig root tsConfigPath = false <->
  fg_sync
    (path_resolve
       [path_dirname (path_dirname tsConfigPath); "vite.config.{js,ts}"]) []
  <> []
  /\ path_dirname tsConfigPath <> root.
Proof.
  unfold keepTsConfig.
  destruct (fg_sync _ _) as [|f fs]; cbn [List.length Nat.eqb negb andb].
  - split; [discriminate | now intros [H _]].
  - destruct (String.eqb_spec (path_dirname tsConfigPath) root) as [->|Hne];
      cbn [negb]; split; try discriminate; auto.
    + now intros [_ H].
    + intros _. split; [discriminate | exact Hne].
Qed.

End Discovery.

(** C6 on scenario 3: [packages/app] hosts a vite config of its own and is
    not the root, yet its tsconfig stays among the discovered files and its
    alias is compiled into the root build, because the vite config is looked
    for in [packages]; [tools/tsconfig.json], whose parent directory is the
    root with its vite config, is the one dropped. *)
Theorem nested_project_tsconfig_kept :
  glob nestedDisk "/proj/packages/app/vite.config.{js,ts}" []
  = ["/proj/packages/app/vite.config.ts"]
  /\ @keepTsConfig nestedNode "/proj" "/proj/packages/app/tsconfig.json" = true
  /\ @ResolveTsConfigAliases.tsConfigFiles nestedNode "/proj"
     = ["/proj/tsconfig.json"; "/proj/packages/app/tsconfig.json"]
  /\ @ResolveTsConfigAliases.configResolved nestedNode (Some "/proj") 0
     = Ok [ {| find := "@app"; replacement := "/proj/src" |};
            {| find := "@nested"; replacement := "/proj/lib" |} ].
Proof. repeat split; vm_compute; reflexivity. Qed.

(** ** Placeholder substitution *)

Lemma dollarFree_append (a b : string) :
  dollarFree (a ++ b) = dollarFree a && dollarFree b.
Proof.
  induction a as [|c a IH]; simpl; [reflexivity|].
  now rewrite IH, andb_assoc.
Qed.

(** A replacement text without a dollar sign is inserted as it is. *)
Lemma GetSubstitution_dollarFree (matched str : string) (position : nat)
    (replacement : string) :
  dollarFree replacement = true ->
  JS.GetSubstitution matched str position replacement = replacement.
Proof.
  induction replacement as [|c r IH]; [reflexivity|].
  cbn [dollarFree]. intros H. apply andb_true_iff in H as [Hc Hr].
  apply negb_true_iff in Hc. cbn [JS.GetSubstitution]. rewrite Hc.
  now rewrite IH.
Qed.

Lemma prefix_split (p s : string) :
  String.prefix p s = true -> s = p ++ JS.drop (String.length p) s.
Proof.
  revert s. induction p as [|a p IH]; intros s.
  - now destruct s.
  - destruct s as [|c s]; simpl; [discriminate|].
    destruct (ascii_dec a c) as [->|]; [|discriminate].
    intros H. now rewrite <- (IH s H).
Qed.

Lemma dollarFree_dollarsArePlaceholders (s : string) :
  dollarFree s = true -> dollarsArePlaceholders s = true.
Proof.
  induction s as [|c s IH]; [reflexivity|].
  cbn [dollarFree dollarsArePlaceholders]. intros H.
  apply andb_true_iff in H as [Hc Hs]. apply negb_true_iff in Hc.
  now rewrite Hc, IH.
Qed.

Lemma dollarsArePlaceholders_drop (n : nat) (s : string) :
  dollarsArePlaceholders s = true ->
  dollarsArePlaceholders (JS.drop n s) = true.
Proof.
  revert s. induction n as [|n IH]; intros s H; [now destruct s|].
  destruct s as [|c s]; [exact H|]. cbn [JS.drop]. apply IH.
  cbn [dollarsArePlaceholders] in H. now apply andb_true_iff in H as [_ H].
Qed.

(** Passing over the rest of a match. *)
Lemma replace_scan_skip (str replacement u t : string) (pos : nat) :
  replace_scan str replacement pos (String.length u) (u ++ t)
  = replace_scan str replacement (pos + String.length u) 0 t.
Proof.
  revert pos. induction u as [|c u IH]; intros pos.
  - cbn [String.length append]. now rewrite Nat.add_0_r.
  - cbn [String.length append replace_scan]. rewrite IH.
    f_equal. lia.
Qed.

(** One step of the scan at a placeholder. *)
Lemma replace_scan_placeholder (str replacement t : string) (pos : nat) :
  replace_scan str replacement pos 0 (configDir ++ t)
  = JS.GetSubstitution configDir str pos replacement
    ++ replace_scan str replacement (pos + String.length configDir) 0 t.
Proof.
  change (configDir ++ t) with (String "$" ("{configDir}" ++ t)).
  cbn [replace_scan].
  replace (String.prefix configDir (String "$" ("{configDir}" ++ t)))
    with true.
  - change (String.length configDir - 1) with (String.length "{configDir}").
    rewrite replace_scan_skip. do 2 f_equal.
    change (String.length configDir) with (S (String.length "{configDir}")).
    lia.
  - symmetry. change (String "$" ("{configDir}" ++ t)) with (configDir ++ t).
    clear. unfold configDir. simpl. now destruct t.
Qed.

(** When the subject holds no dollar sign outside its placeholders, and the
    replacement text holds none at all, the substituted string holds none. *)
Lemma replace_scan_dollarFree (str replacement : string) (n : nat) :
  dollarFree replacement = true ->
  forall (s : string) (pos : nat),
    String.length s <= n ->
    dollarsArePlaceholders s = true ->
    dollarFree (replace_scan str replacement pos 0 s) = true.
Proof.
  intros Hr. induction n as [|n IH]; intros s pos Hlen Hs.
  - destruct s; [reflexivity | simpl in Hlen; lia].
  - destruct s as [|c s']; [reflexivity|].
    destruct (String.prefix configDir (String c s')) eqn:Ep.
    + rewrite (prefix_split _ _ Ep), replace_scan_placeholder.
      rewrite dollarFree_append, GetSubstitution_dollarFree, Hr by assumption.
      apply IH.
      * pose proof (f_equal String.length (prefix_split _ _ Ep)) as Hl.
        rewrite length_append in Hl.
        set (t := JS.drop (String.length configDir) (String c s')) in *.
        change (String.length configDir) with 12 in Hl.
        cbn [String.length] in Hlen, Hl. lia.
      * now apply dollarsArePlaceholders_drop.
    + cbn [replace_scan]. rewrite Ep.
      cbn [dollarsArePlaceholders] in Hs. rewrite Ep in Hs.
      apply andb_true_iff in Hs as [Hc Hs'].
      cbn [dollarFree]. rewrite IH; [|simpl in Hlen; lia | exact Hs'].
      destruct (Ascii.eqb c "$"); [discriminate | reflexivity].
Qed.

Lemma replace_configDir_dollarFree (s replacement : string) :
  dollarFree replacement = true ->
  dollarsArePlaceholders s = true ->
  dollarFree (replace_configDir s replacement) = true.
Proof.
  intros Hr Hs. unfold replace_configDir.
  now apply (replace_scan_dollarFree s replacement (String.length s)).
Qed.

(** A string without a dollar sign does not hold the placeholder. *)
Lemma dollarFree_without_placeholder (s : string) :
  dollarFree s = true -> JS.includes s configDir = false.
Proof.
  induction s as [|c s IH]; [reflexivity|].
  cbn [dollarFree]. intros H. apply andb_true_iff in H as [Hc Hs].
  rewrite includes_cons, (IH Hs), orb_false_r.
  unfold configDir. cbn [String.prefix].
  destruct (ascii_dec "$" c) as [<-|]; [discriminate | reflexivity].
Qed.

(** A prefix without a separator does not reach into a suffix that begins
    with one. *)
Lemma prefix_before_separator (p s t : string) :
  slashFree p = true ->
  String.prefix p (s ++ String "/" t) = true -> String.prefix p s = true.
Proof.
  revert s. induction p as [|a p IH]; intros s Hp; [now destruct s|].
  cbn [slashFree] in Hp. apply andb_true_iff in Hp as [Ha Hp].
  destruct s as [|c s]; cbn [append String.prefix].
  - destruct (ascii_dec a "/") as [->|]; [discriminate | auto].
  - destruct (ascii_dec a c); [now apply IH | auto].
Qed.

Lemma dollarsArePlaceholders_stem (stem : string) :
  dollarsArePlaceholders (stem ++ tsAliasSuffix) = true ->
  dollarsArePlaceholders stem = true.
Proof.
  induction stem as [|c stem IH]; [reflexivity|].
  cbn [append dollarsArePlaceholders]. intros H.
  apply andb_true_iff in H as [Hc Hs]. rewrite (IH Hs), andb_true_r.
  destruct (Ascii.eqb c "$"); [|reflexivity].
  apply (prefix_before_separator configDir (String c stem) "*");
    [reflexivity | exact Hc].
Qed.

(** ** Node's POSIX paths add no dollar sign *)

Lemma split_dollarFree (s : string) :
  dollarFree s = true -> Forall (fun a => dollarFree a = true) (Posix.split s).
Proof.
  induction s as [|c s IH]; cbn [dollarFree Posix.split].
  - repeat constructor.
  - intros H. apply andb_true_iff in H as [Hc Hs]. specialize (IH Hs).
    destruct (Posix.isSlash c); [now constructor|].
    destruct (Posix.split s) as [|seg segs].
    + repeat constructor. cbn [dollarFree]. now rewrite Hc.
    + inversion IH as [|? ? Hseg Hsegs]; subst. constructor; [|exact Hsegs].
      cbn [dollarFree]. now rewrite Hc, Hseg.
Qed.

Lemma normalizeSegments_dollarFree (allowAboveRoot : bool)
    (segs res : list string) :
  Forall (fun a => dollarFree a = true) res ->
  Forall (fun a => dollarFree a = true) segs ->
  Forall (fun a => dollarFree a = true)
    (Posix.normalizeSegments allowAboveRoot res segs).
Proof.
  revert res. induction segs as [|seg segs IH]; intros res Hres Hsegs;
    cbn [Posix.normalizeSegments].
  - now apply Forall_rev.
  - inversion Hsegs as [|? ? Hseg Hrest]; subst.
    destruct (String.eqb seg "" || String.eqb seg "."); [now apply IH|].
    destruct (String.eqb seg "..").
    + destruct res as [|last res'].
      * apply IH; [|exact Hrest].
        destruct allowAboveRoot; repeat constructor.
      * inversion Hres as [|? ? Hlast Hres']; subst.
        destruct (String.eqb last ".."); apply IH; auto.
        destruct allowAboveRoot; [constructor|]; auto.
    + apply IH; [constructor|]; auto.
Qed.

Lemma concat_dollarFree (l : list string) :
  Forall (fun a => dollarFree a = true) l ->
  dollarFree (String.concat "/" l) = true.
Proof.
  induction 1 as [|x l Hx Hl IH]; [reflexivity|].
  cbn [String.concat]. destruct l as [|y l]; [exact Hx|].
  rewrite !dollarFree_append, Hx, IH. reflexivity.
Qed.

Lemma normalizeString_dollarFree (path : string) (allowAboveRoot : bool) :
  dollarFree path = true ->
  dollarFree (Posix.normalizeString path allowAboveRoot) = true.
Proof.
  intros H. unfold Posix.normalizeString.
  apply concat_dollarFree, normalizeSegments_dollarFree;
    [constructor | now apply split_dollarFree].
Qed.

Lemma resolveLoop_dollarFree (cwd : string) (rev_args : list string)
    (resolvedPath : string) :
  dollarFree cwd = true ->
  Forall (fun a => dollarFree a = true) rev_args ->
  dollarFree resolvedPath = true ->
  dollarFree (fst (Posix.resolveLoop cwd rev_args resolvedPath)) = true.
Proof.
  intros Hcwd Hargs. revert resolvedPath.
  induction Hargs as [|path rest Hpath _ IH]; intros resolvedPath Hacc;
    cbn [Posix.resolveLoop].
  - destruct (String.eqb cwd ""); cbn [fst]; [exact Hacc|].
    now rewrite !dollarFree_append, Hcwd, Hacc.
  - destruct (String.eqb path ""); [now apply IH|].
    destruct (Posix.isAbsolute path); [cbn [fst]|apply IH];
      now rewrite !dollarFree_append, Hpath, Hacc.
Qed.

Lemma resolve_dollarFree (cwd : string) (args : list string) :
  dollarFree cwd = true -> Forall (fun a => dollarFree a = true) args ->
  dollarFree (Posix.resolve cwd args) = true.
Proof.
  intros Hcwd Hargs. unfold Posix.resolve.
  pose proof (resolveLoop_dollarFree cwd (List.rev args) "" Hcwd
                (Forall_rev Hargs) eq_refl) as H.
  destruct (Posix.resolveLoop cwd (List.rev args) "") as [p abs].
  cbn [fst] in H.
  pose proof (normalizeString_dollarFree p (negb abs) H) as Hn.
  destruct abs.
  - now rewrite dollarFree_append, Hn.
  - now destruct (String.eqb _ "").
Qed.

Lemma normalize_dollarFree (path : string) :
  dollarFree path = true -> dollarFree (Posix.normalize path) = true.
Proof.
  intros H. unfold Posix.normalize.
  destruct (String.eqb path ""); [reflexivity|].
  pose proof (normalizeString_dollarFree path
                (negb (Posix.isAbsolute path)) H) as Hn.
  destruct (String.eqb _ "").
  - now destruct (Posix.isAbsolute path), (Posix.lastIsSlash path).
  - destruct (Posix.isAbsolute path), (Posix.lastIsSlash path);
      now rewrite ?dollarFree_append, Hn.
Qed.

Lemma join_dollarFree (args : list string) :
  Forall (fun a => dollarFree a = true) args -> dollarFree (Posix.join args) = true.
Proof.
  intros Hargs. unfold Posix.join.
  destruct (String.eqb _ ""); [reflexivity|].
  apply normalize_dollarFree, concat_dollarFree.
  apply Forall_forall. intros a Ha. apply filter_In in Ha as [Ha _].
  rewrite Forall_forall in Hargs. now apply Hargs.
Qed.

Lemma posix_adds_no_dollar cwd d parse beyond host :
  dollarFree cwd = true ->
  @pathsAddNoDollar (posixNode cwd d parse beyond host).
Proof.
  intros Hcwd args Hargs. split; cbn [path_resolve path_join posixNode].
  - now apply resolve_dollarFree.
  - now apply join_dollarFree.
Qed.

(** ** No placeholder survives a disciplined input *)

Section Substitution.
Context {node : Node}.
Hypothesis paths_add_no_dollar : pathsAddNoDollar.

Lemma path_resolve_dollarFree (args : list string) :
  Forall (fun a => dollarFree a = true) args ->
  dollarFree (path_resolve args) = true.
Proof. intros H. exact (proj1 (paths_add_no_dollar args H)). Qed.

Lemma path_join_dollarFree (args : list string) :
  Forall (fun a => dollarFree a = true) args ->
  dollarFree (path_join args) = true.
Proof. intros H. exact (proj2 (paths_add_no_dollar args H)). Qed.

Lemma removeSuffix_dollarsArePlaceholders (tsAlias : string) :
  dollarsArePlaceholders tsAlias = true ->
  dollarsArePlaceholders
    (ResolveTsConfigPaths.removeSuffixPatternFromTsAlias tsAlias) = true.
Proof.
  intros H. unfold ResolveTsConfigPaths.removeSuffixPatternFromTsAlias.
  destruct (JS.endsWith tsAlias tsAliasSuffix) eqn:E; [|exact H].
  apply dollarsArePlaceholders_stem.
  now rewrite <- (endsWith_split tsAlias tsAliasSuffix E).
Qed.

Lemma effectiveBaseUrl_dollarFree (root : string) (b : option string) :
  dollarFree root = true ->
  (forall bu, b = Some bu -> dollarsArePlaceholders bu = true) ->
  (forall bu, b = Some bu ->
     JS.startsWith bu configDir = true \/ dollarFree bu = true) ->
  dollarFree (ResolveTsConfigPaths.effectiveBaseUrl root b) = true.
Proof.
  intros Hroot Hb Hstart. destruct b as [bu|]; cbn; [|exact Hroot].
  destruct (String.eqb bu "."); [exact Hroot|].
  destruct (JS.startsWith bu configDir) eqn:E.
  - apply replace_configDir_dollarFree; auto.
  - destruct (Hstart bu eq_refl) as [H|H]; [congruence | exact H].
Qed.

Lemma resolveMap_dollarFree (base t : string) :
  dollarFree base = true -> dollarsArePlaceholders t = true ->
  dollarFree (ResolveTsConfigPaths.resolveMap base t) = true.
Proof.
  intros Hbase Ht. unfold ResolveTsConfigPaths.resolveMap.
  destruct (String.eqb _ "*"); apply path_resolve_dollarFree;
    repeat constructor; auto.
  apply replace_configDir_dollarFree; [reflexivity|].
  now apply removeSuffix_dollarsArePlaceholders.
Qed.

(** C3, as the code has it: the placeholder is substituted in one pass from
    the left, without a second look at the result. When the root holds no
    dollar sign, the path functions add none, and every dollar sign of the
    [baseUrl] and of the targets begins a placeholder, the compiled
    replacement of the always-first-priority variant holds no dollar sign,
    hence no placeholder; so does that of the existence-checking variant
    when, besides, the [baseUrl] begins with the placeholder or holds no
    dollar sign. *)
Theorem replacement_without_placeholder (root : string) (b : option string)
    (pattern : string) (remaps : list string) :
  dollarFree root = true ->
  (forall bu, b = Some bu -> dollarsArePlaceholders bu = true) ->
  Forall (fun t => dollarsArePlaceholders t = true) remaps ->
  (forall rules r,
     ResolveTsConfigAliases.resolveEntry root b (pattern, remaps) = Ok rules ->
     In r rules ->
     dollarFree (replacement r) = true
     /\ JS.includes (replacement r) configDir = false)
  /\ ((forall bu, b = Some bu ->
         JS.startsWith bu configDir = true \/ dollarFree bu = true) ->
      forall r,
        In r (ResolveTsConfigPaths.resolveEntry root b (pattern, remaps)) ->
        dollarFree (replacement r) = true
        /\ JS.includes (replacement r) configDir = false).
Proof.
  intros Hroot Hb Hremaps.
  assert (Hboth : forall s, dollarFree s = true ->
                    dollarFree s = true /\ JS.includes s configDir = false)
    by (intros s Hs; split;
        [exact Hs | now apply dollarFree_without_placeholder]).
  split.
  - intros rules r Hrules Hin. destruct remaps as [|t rest]; [discriminate|].
    destruct (first_priority_entry_rules _ _ _ _ _ _ Hrules)
      as [-> | (stem & tstem & base & sub & _ & _ & Ht & _ & Hsub & Hbase
                & ->)]; [destruct Hin|].
    destruct Hin as [<-|[]]. cbn [replacement]. apply Hboth.
    apply path_resolve_dollarFree. repeat constructor.
    apply path_join_dollarFree. repeat constructor.
    + destruct Hbase as [-> | (bu & -> & ->)]; [exact Hroot|].
      apply replace_configDir_dollarFree; [exact Hroot|].
      destruct (String.eqb bu ".");
        [now apply dollarFree_dollarsArePlaceholders | now apply Hb].
    + apply replace_configDir_dollarFree.
      * now destruct Hsub as [-> | ->].
      * apply dollarsArePlaceholders_stem. rewrite <- Ht.
        now inversion Hremaps.
  - intros Hstart r Hin.
    apply probing_entry_rules in Hin
      as (_ & before & t & after & -> & -> & _ & _).
    apply Hboth, resolveMap_dollarFree.
    + now apply effectiveBaseUrl_dollarFree.
    + rewrite Forall_forall in Hremaps. apply Hremaps.
      apply in_or_app. right. now left.
Qed.

End Substitution.

(** C3 refuted as stated: removing the placeholder that sits inside
    [${config${configDir}Dir}] leaves a placeholder behind, and the
    always-first-priority variant compiles it into the replacement. *)
Lemma placeholder_survives_compilation :
  @ResolveTsConfigAliases.resolveAliases probeNode "/proj"
    [ {| baseUrl := Some "${configDir}";
         paths := [("@x/*", ["${config${configDir}Dir}/*"])] |} ]
  = Ok [ {| find := "@x"; replacement := "/proj/${configDir}" |} ]
  /\ JS.includes "/proj/${configDir}" "${configDir}" = true.
Proof. split; reflexivity. Qed.

(** The existence-checking variant substitutes in a [baseUrl] only when it
    begins with the placeholder: one held further in reaches the
    replacement when the disk has a directory of that name. *)
Example inner_placeholder_of_baseUrl_kept :
  @ResolveTsConfigPaths.resolveAliases literalNode "/proj"
    [ {| baseUrl := Some "lib/${configDir}";
         paths := [("@x/*", ["src/*"])] |} ]
  = [ {| find := "@x"; replacement := "/proj/lib/${configDir}/src" |} ].
Proof. reflexivity. Qed.

(** C3 as amended on scenario 2 of the specification: the base config of a
    dependency declares its [baseUrl] from the placeholder. *)
Lemma replacement_without_placeholder_witness :
  @ResolveTsConfigAliases.resolveEntry probeNode "/proj"
    (Some "${configDir}/lib") ("@shared/*", ["./*"])
  = Ok [ {| find := "@shared"; replacement := "/proj/lib" |} ]
  /\ JS.includes "/proj/lib" configDir = false.
Proof.
  split; [reflexivity|].
  refine (proj2 (proj1 (@replacement_without_placeholder probeNode _ "/proj"
                          (Some "${configDir}/lib") "@shared/*" ["./*"]
                          eq_refl _ _)
                   [ {| find := "@shared"; replacement := "/proj/lib" |} ]
                   {| find := "@shared"; replacement := "/proj/lib" |}
                   eq_refl (or_introl eq_refl))).
  - now apply posix_adds_no_dollar.
  - now intros bu [= <-].
  - repeat constructor.
Defined.

(** ** The scenarios of the specification *)

(** Scenario 1: [@app/utils] resolves under [src/] of the root. *)
Example scenario_app_alias :
  @ResolveTsConfigAliases.configResolved appNode (Some "/proj") 0
  = Ok [ {| find := "@app"; replacement := "/proj/src" |} ]
  /\ @hook appNode (Some [ {| find := "@app"; replacement := "/proj/src" |} ])
       "@app/utils"
     = Ok (Some "/proj/src/utils.ts").
Proof. split; reflexivity. Qed.

(** Scenario 2: an alias inherited from a dependency's base config. *)
Example scenario_inherited_alias :
  @ResolveTsConfigAliases.configResolved sharedNode (Some "/proj") 0
  = Ok [ {| find := "@shared"; replacement := "/proj/lib" |} ]
  /\ @ResolveTsConfigAliases.tsConfigFiles sharedNode "/proj"
     = ["/proj/tsconfig.json"]
  /\ @hook sharedNode
       (Some [ {| find := "@shared"; replacement := "/proj/lib" |} ])
       "@shared/widgets"
     = Ok (Some "/proj/lib/widgets.ts").
Proof. repeat split; reflexivity. Qed.

(** Scenario 5: no rule for [lodash]. *)
Example scenario_unmatched_specifier :
  @hook appNode (Some [ {| find := "@app"; replacement := "/proj/src" |} ])
    "lodash"
  = Ok None.
Proof. reflexivity. Qed.

(** The root-only variant globs from the root of the file system, whatever
    the project root is. *)
Example root_only_discovery_pattern :
  @path_resolve appNode ["/proj"; "/tsconfig(.*)?.json"]
  = "/tsconfig(.*)?.json"
  /\ @ResolveTsConfigPaths.configResolved appNode (Some "/proj") 0 = Ok [].
Proof. split; reflexivity. Qed.

(** A [find] the engine rejects makes the hook throw when it is reached. *)
Lemma resolveId_rejected_pattern {node : Node} (rule : ResolvedAlias)
    (rest : list ResolvedAlias) (source : string) :
  RegExp_test (find rule) source = None ->
  resolveId (rule :: rest) source = Throw SyntaxError.
Proof. destruct rule as [f r]; simpl. now intros ->. Qed.

(** [configDirRegex] keeps its [lastIndex] from one parent to the next: a
    [baseUrl] that begins with the placeholder is recognised from 0 and
    missed from 12, where the previous hit left off. *)
Example lastIndex_carried_between_parents :
  extendsContribution
    (Some (tsconfigOf "${configDir}" [("@a/*", ["x/*"])])) 0
  = Ok (Some {| baseUrl := Some "${configDir}";
                paths := [("@a/*", ["x/*"])] |}, 12)
  /\ extendsContribution
       (Some (tsconfigOf "${configDir}" [("@a/*", ["x/*"])])) 12
     = Ok (Some {| baseUrl := Some "${configDir}"; paths := [] |}, 0).
Proof. split; reflexivity. Qed.

(** * Further properties of the engine *)

(** ** The suffix of an alias *)

(** X1: [tryExtractFindPatternFromTsAlias] returns a stem exactly for the
    aliases made of that stem and the wildcard suffix, returns [undefined]
    exactly for those that do not end with it, and
    [removeSuffixPatternFromTsAlias] is the same function with the alias
    itself in place of [undefined]. *)
Theorem suffix_extraction (tsAlias : string) :
  (forall stem,
     ResolveTsConfigAliases.tryExtractFindPatternFromTsAlias tsAlias = Some stem
     <-> tsAlias = stem ++ tsAliasSuffix)
  /\ (ResolveTsConfigAliases.tryExtractFindPatternFromTsAlias tsAlias = None
      <-> JS.endsWith tsAlias tsAliasSuffix = false)
  /\ ResolveTsConfigPaths.removeSuffixPatternFromTsAlias tsAlias
     = match ResolveTsConfigAliases.tryExtractFindPatternFromTsAlias tsAlias
       with
       | Some stem => stem
       | None => tsAlias
       end.
Proof.
  repeat split.
  - apply tryExtract_Some.
  - intros ->. apply tryExtract_wildcard.
  - unfold ResolveTsConfigAliases.tryExtractFindPatternFromTsAlias.
    now destruct (JS.endsWith tsAlias tsAliasSuffix).
  - unfold ResolveTsConfigAliases.tryExtractFindPatternFromTsAlias.
    now intros ->.
  - unfold ResolveTsConfigAliases.tryExtractFindPatternFromTsAlias,
      ResolveTsConfigPaths.removeSuffixPatternFromTsAlias.
    now destruct (JS.endsWith tsAlias tsAliasSuffix).
Qed.

(** ** Where compiled rules come from *)

Section Origins.
Context {node : Node}.

Lemma first_priority_entry_origin (root : string) (b : option string)
    (entry : string * list string) (rules : list ResolvedAlias) :
  ResolveTsConfigAliases.resolveEntry root b entry = Ok rules ->
  List.length rules <= 1
  /\ Forall
       (fun r =>
          find r <> ""
          /\ exists t rest,
               entry = (find r ++ tsAliasSuffix, t :: rest)
               /\ JS.endsWith t tsAliasSuffix = true)
       rules.
Proof.
  destruct entry as [pattern [|t rest]]; [discriminate|]. intros H.
  destruct (first_priority_entry_rules _ _ _ _ _ _ H)
    as [-> | (stem & tstem & base & sub & -> & Hstem & -> & _ & _ & _ & ->)].
  - split; [simpl; lia | constructor].
  - split; [simpl; lia|]. repeat constructor; [exact Hstem|].
    exists (tstem ++ tsAliasSuffix), rest. split; [reflexivity|].
    apply endsWith_append.
Qed.

Lemma entriesLoop_origin (root : string) (b : option string)
    (entries : TsConfigPaths) :
  forall acc rules,
    ResolveTsConfigAliases.entriesLoop root b entries acc = Ok rules ->
    exists added,
      rules = (acc ++ added)%list
      /\ List.length added <= List.length entries
      /\ Forall
           (fun r =>
              find r <> ""
              /\ exists t rest,
                   In (find r ++ tsAliasSuffix, t :: rest) entries
                   /\ JS.endsWith t tsAliasSuffix = true)
           added.
Proof.
  induction entries as [|entry entries IH]; intros acc rules;
    cbn [ResolveTsConfigAliases.entriesLoop].
  - intros [= <-]. exists []. rewrite app_nil_r. repeat split; auto.
  - destruct (ResolveTsConfigAliases.resolveEntry root b entry)
      as [rs|e] eqn:E; cbn [rbind]; [|discriminate].
    intros H. destruct (IH _ _ H) as (added & -> & Hlen & Hall).
    destruct (first_priority_entry_origin _ _ _ _ E) as [Hone Hrs].
    exists (rs ++ added)%list. rewrite app_assoc. split; [reflexivity|].
    split; [rewrite length_app; simpl; lia|].
    apply Forall_app. split.
    + eapply Forall_impl; [|exact Hrs].
      intros r (Hf & t & rest & -> & Ht). split; [exact Hf|].
      exists t, rest. split; [now left | exact Ht].
    + eapply Forall_impl; [|exact Hall].
      intros r (Hf & t & rest & Hin & Ht). split; [exact Hf|].
      exists t, rest. split; [now right | exact Ht].
Qed.

Lemma aliasesLoop_origin (root : string) (aliases : list UnresolvedAlias) :
  forall acc rules,
    ResolveTsConfigAliases.aliasesLoop root aliases acc = Ok rules ->
    exists added,
      rules = (acc ++ added)%list
      /\ List.length added <= List.length (List.flat_map paths aliases)
      /\ Forall
           (fun r =>
              find r <> ""
              /\ exists a t rest,
                   In a aliases
                   /\ In (find r ++ tsAliasSuffix, t :: rest) (paths a)
                   /\ JS.endsWith t tsAliasSuffix = true)
           added.
Proof.
  induction aliases as [|a aliases IH]; intros acc rules;
    cbn [ResolveTsConfigAliases.aliasesLoop].
  - intros [= <-]. exists []. rewrite app_nil_r. repeat split; auto.
  - destruct (ResolveTsConfigAliases.entriesLoop root (baseUrl a) (paths a) acc)
      as [rs|e] eqn:E; cbn [rbind]; [|discriminate].
    intros H. destruct (IH _ _ H) as (added & -> & Hlen & Hall).
    destruct (entriesLoop_origin _ _ _ _ _ E) as (mine & -> & Hlen' & Hmine).
    exists (mine ++ added)%list. rewrite app_assoc. split; [reflexivity|].
    split; [cbn [flat_map]; rewrite !length_app; lia|].
    apply Forall_app. split.
    + eapply Forall_impl; [|exact Hmine].
      intros r (Hf & t & rest & Hin & Ht). split; [exact Hf|].
      exists a, t, rest. repeat split; auto. now left.
    + eapply Forall_impl; [|exact Hall].
      intros r (Hf & a' & t & rest & Ha & Hin & Ht). split; [exact Hf|].
      exists a', t, rest. repeat split; auto. now right.
Qed.

(** X2: whatever the always-first-priority compiler returns, each rule has
    a non-empty [find], stands for an entry whose pattern is that [find]
    with the wildcard suffix and whose first target ends with the suffix
    too, and there are no more rules than entries. *)
Theorem first_priority_rules_origin (root : string)
    (aliases : list UnresolvedAlias) (rules : list ResolvedAlias) :
  ResolveTsConfigAliases.resolveAliases root aliases = Ok rules ->
  List.length rules <= List.length (List.flat_map paths aliases)
  /\ Forall
       (fun r =>
          find r <> ""
          /\ exists a t rest,
               In a aliases
               /\ In (find r ++ tsAliasSuffix, t :: rest) (paths a)
               /\ JS.endsWith t tsAliasSuffix = true)
       rules.
Proof.
  intros H. destruct (aliasesLoop_origin _ _ _ _ H) as (added & -> & Hl & Ha).
  now split.
Qed.

Lemma probing_entry_shape (root : string) (b : option string)
    (entry : string * list string) :
  List.length (ResolveTsConfigPaths.resolveEntry root b entry) <= 1
  /\ Forall
       (fun r =>
          find r <> "" /\ replacement r <> ""
          /\ existsSync (replacement r) = true
          /\ find r
             = ResolveTsConfigPaths.removeSuffixPatternFromTsAlias (fst entry))
       (ResolveTsConfigPaths.resolveEntry root b entry).
Proof.
  destruct entry as [pattern remaps].
  split.
  - unfold ResolveTsConfigPaths.resolveEntry.
    destruct (negb _); [simpl; lia|].
    destruct (List.filter _ _); [simpl; lia|].
    destruct (negb _); simpl; lia.
  - apply Forall_forall. intros r Hin.
    destruct (probing_entry_rules _ _ _ _ _ Hin)
      as (Hfind & _ & _ & _ & _ & _ & Hex & _).
    revert Hin. unfold ResolveTsConfigPaths.resolveEntry.
    destruct (JS.truthy _) eqn:E1; [|intros []]. cbn [negb].
    destruct (List.filter _ _) as [|m ms]; [intros []|].
    destruct (JS.truthy m) eqn:E2; [|intros []]. cbn [negb].
    intros [<-|[]]. cbn [find replacement fst] in *.
    repeat split; auto; intros Hempty; rewrite Hempty in *; discriminate.
Qed.

(** X3: each rule of the existence-checking compiler has a non-empty
    [find], which is a pattern of the alias sets with its suffix removed,
    and a non-empty replacement that [existsSync] accepts; there are no more
    rules than entries. *)
Theorem probing_rules_origin (root : string)
    (aliases : list UnresolvedAlias) :
  List.length (ResolveTsConfigPaths.resolveAliases root aliases)
  <= List.length (List.flat_map paths aliases)
  /\ Forall
       (fun r =>
          find r <> "" /\ replacement r <> ""
          /\ existsSync (replacement r) = true
          /\ exists a pattern targets,
               In a aliases /\ In (pattern, targets) (paths a)
               /\ find r
                  = ResolveTsConfigPaths.removeSuffixPatternFromTsAlias pattern)
       (ResolveTsConfigPaths.resolveAliases root aliases).
Proof.
  unfold ResolveTsConfigPaths.resolveAliases. split.
  - induction aliases as [|a aliases IH]; [simpl; lia|].
    cbn [flat_map]. rewrite !length_app.
    assert (List.length
              (flat_map (ResolveTsConfigPaths.resolveEntry root (baseUrl a))
                 (paths a)) <= List.length (paths a)); [|lia].
    induction (paths a) as [|entry entries IHe]; [simpl; lia|].
    cbn [flat_map]. rewrite length_app.
    pose proof (proj1 (probing_entry_shape root (baseUrl a) entry)).
    simpl List.length. lia.
  - apply Forall_forall. intros r Hin.
    apply in_flat_map in Hin as (a & Ha & Hin).
    apply in_flat_map in Hin as ([pattern targets] & He & Hin).
    pose proof (proj2 (probing_entry_shape root (baseUrl a) (pattern, targets)))
      as Hshape.
    rewrite Forall_forall in Hshape.
    destruct (Hshape r Hin) as (Hf & Hr & Hex & Hfind).
    repeat split; auto. exists a, pattern, targets. auto.
Qed.

End Origins.

(** X1 on [@app/*]. *)
Lemma suffix_extraction_witness :
  ResolveTsConfigAliases.tryExtractFindPatternFromTsAlias "@app/*"
  = Some "@app".
Proof.
  exact (proj2 (proj1 (suffix_extraction "@app/*") "@app") eq_refl).
Defined.

(** X2 on scenario 1. *)
Lemma first_priority_rules_origin_witness :
  Forall
    (fun r =>
       find r <> ""
       /\ exists a t rest,
            In a [ {| baseUrl := Some "."; paths := [("@app/*", ["src/*"])] |} ]
            /\ In (find r ++ tsAliasSuffix, t :: rest) (paths a)
            /\ JS.endsWith t tsAliasSuffix = true)
    [ {| find := "@app"; replacement := "/proj/src" |} ].
Proof.
  exact (proj2 (@first_priority_rules_origin probeNode "/proj"
                  [ {| baseUrl := Some "."; paths := [("@app/*", ["src/*"])] |} ]
                  [ {| find := "@app"; replacement := "/proj/src" |} ]
                  eq_refl)).
Defined.

(** ** Compiling alias sets one after the other *)

Section Composition.
Context {node : Node}.

Lemma entriesLoop_acc (root : string) (b : option string)
    (entries : TsConfigPaths) (acc : list ResolvedAlias) :
  ResolveTsConfigAliases.entriesLoop root b entries acc
  = rbind (ResolveTsConfigAliases.entriesLoop root b entries [])
      (fun rules => Ok (acc ++ rules)%list).
Proof.
  revert acc. induction entries as [|entry entries IH]; intros acc;
    cbn [ResolveTsConfigAliases.entriesLoop rbind].
  - now rewrite app_nil_r.
  - destruct (ResolveTsConfigAliases.resolveEntry root b entry) as [rs|e];
      cbn [rbind app]; [|reflexivity].
    rewrite (IH (acc ++ rs)%list), (IH rs).
    destruct (ResolveTsConfigAliases.entriesLoop root b entries []);
      cbn [rbind]; [|reflexivity].
    now rewrite app_assoc.
Qed.

Lemma aliasesLoop_acc (root : string) (aliases : list UnresolvedAlias)
    (acc : list ResolvedAlias) :
  ResolveTsConfigAliases.aliasesLoop root aliases acc
  = rbind (ResolveTsConfigAliases.aliasesLoop root aliases [])
      (fun rules => Ok (acc ++ rules)%list).
Proof.
  revert acc. induction aliases as [|a aliases IH]; intros acc;
    cbn [ResolveTsConfigAliases.aliasesLoop rbind].
  - now rewrite app_nil_r.
  - rewrite (entriesLoop_acc root (baseUrl a) (paths a) acc).
    destruct (ResolveTsConfigAliases.entriesLoop root (baseUrl a) (paths a) [])
      as [rs|e]; cbn [rbind]; [|reflexivity].
    rewrite (IH (acc ++ rs)%list), (IH rs).
    destruct (ResolveTsConfigAliases.aliasesLoop root aliases []);
      cbn [rbind]; [|reflexivity].
    now rewrite app_assoc.
Qed.

(** X4: both compilers work alias set by alias set: the rules of a
    concatenation are the rules of the first part followed by those of the
    second, in that order and with repeated [find]s kept; in the
    always-first-priority variant the first part to throw decides. *)
Theorem resolveAliases_app (root : string) (l1 l2 : list UnresolvedAlias) :
  ResolveTsConfigPaths.resolveAliases root (l1 ++ l2)%list
  = (ResolveTsConfigPaths.resolveAliases root l1
     ++ ResolveTsConfigPaths.resolveAliases root l2)%list
  /\ ResolveTsConfigAliases.resolveAliases root (l1 ++ l2)%list
     = rbind (ResolveTsConfigAliases.resolveAliases root l1)
         (fun rules1 =>
            rbind (ResolveTsConfigAliases.resolveAliases root l2)
              (fun rules2 => Ok (rules1 ++ rules2)%list)).
Proof.
  split.
  - unfold ResolveTsConfigPaths.resolveAliases. apply flat_map_app.
  - unfold ResolveTsConfigAliases.resolveAliases. rewrite aliasesLoop_app.
    destruct (ResolveTsConfigAliases.aliasesLoop root l1 []) as [rules1|e];
      cbn [rbind]; [|reflexivity].
    apply aliasesLoop_acc.
Qed.

End Composition.

(** ** Every outcome of the hook *)

Section Outcomes.
Context {node : Node}.

Lemma resolveId_forward (rules : list ResolvedAlias) (source : string) :
  match resolveId rules source with
  | Ok (Some id) =>
      exists before rule after,
        rules = (before ++ rule :: after)%list
        /\ Forall (declines source) before
        /\ matches rule source
        /\ this_resolve (rewritten rule source) = Some id
  | Ok None => Forall (declines source) rules
  | Throw e =>
      e = SyntaxError
      /\ exists before rule after,
           rules = (before ++ rule :: after)%list
           /\ Forall (declines source) before
           /\ RegExp_test (find rule) source = None
  end.
Proof.
  induction rules as [|rule rules IH]; [constructor|].
  assert (Hstep : declines source rule ->
            match resolveId rules source with
            | Ok (Some id) =>
                exists before rule0 after,
                  rule :: rules = (before ++ rule0 :: after)%list
                  /\ Forall (declines source) before
                  /\ matches rule0 source
                  /\ this_resolve (rewritten rule0 source) = Some id
            | Ok None => Forall (declines source) (rule :: rules)
            | Throw e =>
                e = SyntaxError
                /\ exists before rule0 after,
                     rule :: rules = (before ++ rule0 :: after)%list
                     /\ Forall (declines source) before
                     /\ RegExp_test (find rule0) source = None
            end).
  { intros Hd. destruct (resolveId rules source) as [[id|]|e].
    - destruct IH as (before & r & after & -> & Hb & Hm & Hr).
      exists (rule :: before), r, after. repeat split; auto.
    - now constructor.
    - destruct IH as (He & before & r & after & -> & Hb & Hn).
      split; [exact He|]. exists (rule :: before), r, after.
      repeat split; auto. }
  destruct (RegExp_test (find rule) source) as [[|]|] eqn:Et.
  - destruct (this_resolve (rewritten rule source)) as [id|] eqn:Eh.
    + rewrite (resolveId_match rule rules source id Et Eh).
      exists [], rule, rules. repeat split; auto.
    + assert (Hd : declines source rule) by (right; split; assumption).
      rewrite (resolveId_decline rule rules source Hd). now apply Hstep.
  - assert (Hd : declines source rule) by now left.
    rewrite (resolveId_decline rule rules source Hd). now apply Hstep.
  - rewrite (resolveId_rejected_pattern rule rules source Et).
    split; [reflexivity|]. exists [], rule, rules. repeat split; auto.
Qed.

(** X5: the hook returns an id exactly when some rule matches, the host
    resolves its rewritten specifier to that id, and every rule before it
    declines; it returns [undefined] exactly when every rule declines; and
    it throws, a [SyntaxError], exactly when the engine rejects the [find]
    of a rule before which every rule declines. *)
Theorem resolveId_outcomes (rules : list ResolvedAlias) (source : string) :
  (forall id,
     resolveId rules source = Ok (Some id)
     <-> exists before rule after,
           rules = (before ++ rule :: after)%list
           /\ Forall (declines source) before
           /\ matches rule source
           /\ this_resolve (rewritten rule source) = Some id)
  /\ (resolveId rules source = Ok None <-> Forall (declines source) rules)
  /\ (forall e,
        resolveId rules source = Throw e
        <-> e = SyntaxError
            /\ exists before rule after,
                 rules = (before ++ rule :: after)%list
                 /\ Forall (declines source) before
                 /\ RegExp_test (find rule) source = None).
Proof.
  pose proof (resolveId_forward rules source) as Hf.
  repeat split.
  - intros H. now rewrite H in Hf.
  - intros (before & rule & after & -> & Hb & Hm & Hr).
    rewrite resolveId_skip by assumption. now apply resolveId_match.
  - intros H. now rewrite H in Hf.
  - intros H. rewrite <- (app_nil_r rules). now rewrite resolveId_skip.
  - rewrite H in Hf. apply Hf.
  - rewrite H in Hf. apply Hf.
  - intros (-> & before & rule & after & -> & Hb & Hn).
    rewrite resolveId_skip by assumption.
    now apply resolveId_rejected_pattern.
Qed.

Lemma prefix_append (p s : string) : String.prefix p (p ++ s) = true.
Proof.
  induction p as [|c p IH]; cbn [append String.prefix]; [now destruct s|].
  destruct (ascii_dec c c); [exact IH | congruence].
Qed.

Lemma indexOf_prefix (s t : string) :
  String.prefix t s = true -> JS.indexOf s t = Some 0.
Proof. intros H. destruct s; cbn [JS.indexOf]; now rewrite H. Qed.

(** X6: over an engine that reads a [find] of ordinary characters as
    itself, a specifier that begins with such a [find] goes to the host with
    the [find] exchanged for the replacement, when the replacement holds no
    dollar sign; the rules behind are tried only if the host fails. *)
Theorem resolveId_prefix (f repl tail : string) (rest : list ResolvedAlias) :
  ecmaOnFragment ->
  plain f = true ->
  dollarFree repl = true ->
  resolveId ({| find := f; replacement := repl |} :: rest) (f ++ tail)
  = match this_resolve (repl ++ tail) with
    | Some id => Ok (Some id)
    | None => resolveId rest (f ++ tail)
    end.
Proof.
  intros Hecma Hplain Hrepl. cbn [resolveId].
  rewrite (Hecma f (f ++ tail) (plain_plainOrDot f Hplain)).
  rewrite search_plain by assumption.
  assert (Hidx : JS.indexOf (f ++ tail) f = Some 0)
    by apply indexOf_prefix, prefix_append.
  unfold JS.includes, JS.replace. rewrite Hidx.
  rewrite GetSubstitution_dollarFree by assumption.
  cbn [JS.take Nat.add]. now rewrite drop_append.
Qed.

End Outcomes.

(** X5 and X6 on scenario 1. *)
Lemma resolveId_outcomes_witness :
  @resolveId appNode [ {| find := "@app"; replacement := "/proj/src" |} ]
    "lodash"
  = Ok None.
Proof.
  apply (proj2 (proj1 (proj2 (@resolveId_outcomes appNode _ "lodash")))).
  repeat constructor.
Defined.

Lemma resolveId_prefix_witness :
  @resolveId appNode [ {| find := "@app"; replacement := "/proj/src" |} ]
    "@app/utils"
  = Ok (Some "/proj/src/utils.ts").
Proof.
  exact (@resolveId_prefix appNode "@app" "/proj/src" "/utils" []
           (fragmentEngine_decides _ _ _ _ _) eq_refl eq_refl).
Defined.

(** ** What the walker keeps *)

Lemma test_at_placeholder (rest : string) :
  configDirRegex_test 0 (configDir ++ rest)
  = (true, String.length configDir).
Proof.
  unfold configDirRegex_test. cbn [Nat.leb JS.drop].
  replace (JS.drop 0 (configDir ++ rest)) with (configDir ++ rest)
    by now destruct (configDir ++ rest).
  now rewrite (indexOf_prefix _ _ (prefix_append configDir rest)).
Qed.

Lemma test_behind_placeholder (rest : string) :
  JS.includes rest configDir = false ->
  configDirRegex_test (String.length configDir) (configDir ++ rest)
  = (false, 0).
Proof.
  intros H. unfold configDirRegex_test.
  rewrite length_append, drop_append.
  replace (Nat.leb _ _) with true by (symmetry; apply Nat.leb_le; lia).
  unfold JS.includes in H. now destruct (JS.indexOf rest configDir).
Qed.

(** A hit of [test] means the placeholder is in the string. *)
Lemma test_hit (li : lastIndex) (s : string) (li' : lastIndex) :
  configDirRegex_test li s = (true, li') -> JS.includes s configDir = true.
Proof.
  unfold configDirRegex_test, JS.includes.
  destruct (Nat.leb li (String.length s)); [|discriminate].
  destruct (JS.indexOf (JS.drop li s) configDir) eqn:E; [|discriminate].
  intros _. destruct (JS.indexOf s configDir) eqn:E'; [reflexivity|].
  now rewrite (indexOf_drop_none configDir li s E') in E.
Qed.

Lemma filterValues_sound (values : list string) (li : lastIndex) :
  exists kept li',
    filterValues values li = Ok (kept, li')
    /\ (kept <> [] -> Exists (fun v => JS.includes v configDir = true) values).
Proof.
  revert li. induction values as [|v vs IH]; intros li; cbn [filterValues].
  - exists [], li. split; [reflexivity | congruence].
  - unfold bind at 1, test.
    destruct (configDirRegex_test li v) as [hit li1] eqn:Et.
    unfold bind, ret. destruct (IH li1) as (kept & li2 & -> & Hk).
    destruct hit.
    + eexists _, li2. split; [reflexivity|]. intros _. left.
      eapply test_hit, Et.
    + exists kept, li2. split; [reflexivity|]. intros Hne. right. auto.
Qed.

Lemma filterEntries_sound (entries : TsConfigPaths) (li : lastIndex) :
  exists kept flag li',
    filterEntries entries li = Ok ((kept, flag), li')
    /\ Forall hasPlaceholderTarget kept
    /\ incl kept entries
    /\ (flag = true <-> kept <> []).
Proof.
  revert li. induction entries as [|[pattern values] es IH]; intros li;
    cbn [filterEntries].
  - exists [], false, li. repeat split; auto; try congruence.
    all: try (intros x []).
  - unfold bind at 1.
    destruct (filterValues_sound values li) as (kv & li1 & -> & Hkv).
    unfold bind, ret.
    destruct (IH li1) as (kept & flag & li2 & -> & Hall & Hincl & Hflag).
    cbn [fst snd]. destruct kv as [|v kv]; cbn [List.length Nat.eqb negb orb].
    + exists kept, flag, li2. repeat split; auto; try apply Hflag.
      now apply incl_tl.
    + eexists _, true, li2. repeat split; auto; try congruence.
      * constructor; [|exact Hall]. apply Hkv. discriminate.
      * intros x [<-|Hx]; [now left | right; auto].
Qed.

Lemma extendsContribution_sound (parent : option TsConfig) (li : lastIndex) :
  exists contribution li',
    extendsContribution parent li = Ok (contribution, li')
    /\ forall a, contribution = Some a ->
         usable a /\ baseUrl a = cfg_baseUrl parent
         /\ exists ps, cfg_paths parent = Some ps /\ incl (paths a) ps.
Proof.
  unfold extendsContribution, bind at 1, test.
  destruct (configDirRegex_test li (JS.String_of (cfg_baseUrl parent)))
    as [hit li1] eqn:Et.
  destruct (cfg_paths parent) as [ps|]; [|exists None, li1; split;
                                            [reflexivity | discriminate]].
  destruct hit.
  - unfold bind, ret. cbn [fst snd negb andb].
    apply test_hit in Et.
    destruct (cfg_baseUrl parent) as [bu|]; [|discriminate].
    cbn [JS.String_of] in Et.
    assert (Ht : JS.truthy bu = true) by (now destruct bu).
    cbn [JS.truthy_opt]. rewrite Ht. cbn [negb andb].
    eexists (Some _), li1. split; [reflexivity|]. intros a [= <-].
    split; [now left|]. split; [reflexivity|].
    exists ps. split; [reflexivity | apply incl_refl].
  - unfold bind, ret.
    destruct (filterEntries_sound ps li1)
      as (kept & flag & li2 & -> & Hall & Hincl & Hflag).
    cbn [fst snd].
    destruct (JS.truthy_opt (cfg_baseUrl parent)) eqn:Ht; cbn [negb andb].
    + eexists (Some _), li2. split; [reflexivity|]. intros a [= <-].
      split; [now left|]. split; [reflexivity|]. now exists ps.
    + destruct flag; cbn [negb].
      * eexists (Some _), li2. split; [reflexivity|]. intros a [= <-].
        split; [right; split; [now apply Hflag | exact Hall]|].
        split; [reflexivity|]. now exists ps.
      * exists None, li2. split; [reflexivity | discriminate].
Qed.

Section WalkerInvariant.
Context {node : Node}.

Lemma extendsLoop_sound (root : string) (entries : list string) :
  forall aliases li out li',
    extendsLoop root entries aliases li = Ok (out, li') ->
    exists added,
      out = (aliases ++ added)%list
      /\ List.length added <= List.length entries
      /\ Forall usable added.
Proof.
  induction entries as [|q qs IH]; intros aliases li out li';
    cbn [extendsLoop].
  - intros [= <- _]. exists []. rewrite app_nil_r. repeat split; auto.
  - unfold bind at 1, lift.
    destruct (resolveTsConfigPath (extendsTarget root q)) as [c|e];
      [|discriminate].
    unfold bind at 1.
    destruct (extendsContribution_sound c li) as (contribution & li1 & -> & Hc).
    intros H. destruct (IH _ _ _ _ H) as (added & -> & Hlen & Hall).
    exists (pushed contribution ++ added)%list. rewrite app_assoc.
    split; [reflexivity|]. split.
    + rewrite length_app. destruct contribution; simpl; lia.
    + apply Forall_app. split; [|exact Hall].
      destruct contribution as [a|]; cbn [pushed]; constructor; auto.
      now apply Hc.
Qed.

(** X9: what [getRecursivePathsFromTsConfig] returns is the file's own pair,
    if it has one, followed by at most one alias set per [extends] entry,
    and every alias set in it can be anchored: its [baseUrl] is a non-empty
    string, or it has entries and each of them has a target with the
    placeholder. *)
Theorem walker_result_usable (root tsConfigPath : string) (li li' : lastIndex)
    (aliases : list UnresolvedAlias) :
  getRecursivePathsFromTsConfig root tsConfigPath li = Ok (aliases, li') ->
  Forall usable aliases
  /\ exists tsConfigContent added,
       resolveTsConfigPath tsConfigPath = Ok tsConfigContent
       /\ aliases = (ownAliases tsConfigContent ++ added)%list
       /\ List.length added
          <= match tsConfigContent with
             | Some {| extends := Some (ExtendsArray entries) |} =>
                 List.length entries
             | _ => 0
             end.
Proof.
  unfold getRecursivePathsFromTsConfig, bind, lift.
  destruct (resolveTsConfigPath tsConfigPath) as [c|e]; [|discriminate].
  assert (Hown : Forall usable (ownAliases c)).
  { unfold ownAliases. destruct (cfg_paths c); [|constructor].
    destruct (cfg_baseUrl c) as [b|]; [|constructor].
    destruct (JS.truthy b) eqn:Ht; repeat constructor. exact Ht. }
  assert (Hnone : Ok (ownAliases c, li) = Ok (aliases, li') ->
            Forall usable aliases
            /\ exists tsConfigContent added,
                 Ok c = Ok tsConfigContent
                 /\ aliases = (ownAliases tsConfigContent ++ added)%list
                 /\ List.length added <= 0).
  { intros [= <- _]. split; [exact Hown|]. exists c, [].
    rewrite app_nil_r. auto. }
  destruct c as [[co [[s|entries]|]]|]; try (unfold ret; intros H;
    destruct (Hnone H) as (Hu & c' & added & Hc & Ha & Hl); split;
    [exact Hu | exists c', added; repeat split; auto; lia]).
  intros H. destruct (extendsLoop_sound _ _ _ _ _ _ H)
    as (added & -> & Hlen & Hall).
  split; [apply Forall_app; auto|].
  eexists _, added. repeat split; auto.
Qed.

(** X7: of two parents in a row whose [baseUrl] begins with the
    placeholder, the first is taken with all its paths and the second,
    tested from the [lastIndex] the first left, is taken with none when its
    targets hold no placeholder. *)
Theorem second_placeholder_parent_loses_paths (root p1 p2 : string)
    (c1 c2 : option TsConfig) (r1 r2 : string) (ps1 ps2 : TsConfigPaths)
    (aliases : list UnresolvedAlias) :
  resolveTsConfigPath (extendsTarget root p1) = Ok c1 ->
  resolveTsConfigPath (extendsTarget root p2) = Ok c2 ->
  cfg_baseUrl c1 = Some (configDir ++ r1) -> cfg_paths c1 = Some ps1 ->
  cfg_baseUrl c2 = Some (configDir ++ r2) -> cfg_paths c2 = Some ps2 ->
  JS.includes r2 configDir = false ->
  Forall
    (fun entry => Forall (fun v => JS.includes v configDir = false) (snd entry))
    ps2 ->
  exists li',
    extendsLoop root [p1; p2] aliases 0
    = Ok ((aliases
           ++ [ {| baseUrl := Some (configDir ++ r1)%string; paths := ps1 |};
                {| baseUrl := Some (configDir ++ r2)%string; paths := [] |} ]
          )%list,
          li').
Proof.
  intros Hread1 Hread2 Hb1 Hp1 Hb2 Hp2 Hr2 Hps2.
  cbn [extendsLoop]. unfold bind at 1, lift. rewrite Hread1.
  assert (H1 : extendsContribution c1 0
               = Ok (Some {| baseUrl := Some (configDir ++ r1);
                             paths := ps1 |}, String.length configDir)).
  { unfold extendsContribution, bind, test, ret. rewrite Hb1, Hp1.
    cbn [JS.String_of]. now rewrite test_at_placeholder. }
  unfold bind at 1. rewrite H1.
  unfold bind at 1, lift. rewrite Hread2.
  destruct (filterEntries_without_placeholder ps2 Hps2 0) as [li' Hf].
  assert (H2 : extendsContribution c2 (String.length configDir)
               = Ok (Some {| baseUrl := Some (configDir ++ r2);
                             paths := [] |}, li')).
  { unfold extendsContribution, bind, test, ret. rewrite Hb2, Hp2.
    cbn [JS.String_of]. rewrite (test_behind_placeholder r2 Hr2).
    now rewrite Hf. }
  unfold bind at 1. rewrite H2. exists li'. unfold ret. cbn [pushed].
  now rewrite <- app_assoc.
Qed.

End WalkerInvariant.

Lemma everyOther_cons {A : Type} (a : A) (l : list A) :
  everyOther (a :: l) = a :: everyOther (List.tl l).
Proof. now destruct l. Qed.

Lemma filterEntries_alternates (entries : TsConfigPaths) :
  Forall placeholderFirst entries ->
  (exists li',
     filterEntries entries 0
     = Ok ((everyOther entries, negb (Nat.eqb (List.length entries) 0)), li'))
  /\ (exists li',
        filterEntries entries (String.length configDir)
        = Ok ((everyOther (List.tl entries),
               negb (Nat.eqb (List.length (List.tl entries)) 0)), li')).
Proof.
  induction 1 as [|[pattern values] es (rest & Hv & Hrest) _ [IH0 IH12]].
  - split; eexists; reflexivity.
  - cbn [snd] in Hv. subst values. split; cbn [filterEntries filterValues].
    + unfold bind at 1. unfold bind at 1, test.
      rewrite test_at_placeholder. unfold bind at 1, ret.
      destruct IH12 as [li' H12]. unfold bind. rewrite H12.
      exists li'. cbn [fst snd List.length Nat.eqb negb orb].
      now rewrite everyOther_cons.
    + unfold bind at 1. unfold bind at 1, test.
      rewrite (test_behind_placeholder rest Hrest). unfold bind at 1, ret.
      destruct IH0 as [li' H0]. unfold bind. rewrite H0.
      exists li'. reflexivity.
Qed.

(** X8: when every entry of a parent has one target, beginning with the
    placeholder and holding no other, the filter over the entries keeps the
    first, third, fifth, ... entry and drops the ones between: after each
    hit the next target is tested from behind its placeholder. *)
Theorem placeholder_entries_alternate (entries : TsConfigPaths) :
  Forall placeholderFirst entries ->
  exists li',
    filterEntries entries 0
    = Ok ((everyOther entries, negb (Nat.eqb (List.length entries) 0)), li').
Proof. intros H. exact (proj1 (filterEntries_alternates entries H)). Qed.

(** X9 on scenario 2, X7 on two base configs, X8 on two entries. *)
Lemma walker_result_usable_witness :
  Forall usable
    [ {| baseUrl := Some "${configDir}/lib";
         paths := [("@shared/*", ["./*"])] |} ].
Proof.
  exact (proj1 (@walker_result_usable sharedNode "/proj" "/proj/tsconfig.json"
                  0 12 _ eq_refl)).
Defined.

Lemma second_placeholder_parent_loses_paths_witness :
  exists li',
    @extendsLoop twinNode "/proj" ["@acme/base"; "@acme/more"] [] 0
    = Ok ([ {| baseUrl := Some "${configDir}/lib";
               paths := [("@shared/*", ["./*"])] |};
            {| baseUrl := Some "${configDir}/more"; paths := [] |} ], li').
Proof.
  refine (@second_placeholder_parent_loses_paths twinNode "/proj"
            "@acme/base" "@acme/more"
            (Some (tsconfigOf "${configDir}/lib" [("@shared/*", ["./*"])]))
            (Some (tsconfigOf "${configDir}/more" [("@more/*", ["./*"])]))
            "/lib" "/more" _ _ [] eq_refl eq_refl eq_refl eq_refl eq_refl
            eq_refl eq_refl _).
  repeat constructor.
Defined.

Lemma placeholder_entries_alternate_witness :
  exists li',
    filterEntries
      [ ("@a/*", ["${configDir}/a/*"]); ("@b/*", ["${configDir}/b/*"]) ] 0
    = Ok (([ ("@a/*", ["${configDir}/a/*"]) ], true), li').
Proof.
  refine (placeholder_entries_alternate
            [ ("@a/*", ["${configDir}/a/*"]); ("@b/*", ["${configDir}/b/*"]) ]
            _).
  repeat constructor.
  - exists "/a/*". split; reflexivity.
  - exists "/b/*". split; reflexivity.
Defined.

(** The second base config of the project above reaches the compiler
    without its paths. *)
Example second_parent_alias_lost :
  @ResolveTsConfigAliases.configResolved twinNode (Some "/proj") 0
  = Ok [ {| find := "@shared"; replacement := "/proj/lib" |} ].
Proof. reflexivity. Qed.

(** ** What is substituted for the placeholder *)

Lemma includes_cons_false (c : ascii) (s t : string) :
  JS.includes (String c s) t = false ->
  String.prefix t (String c s) = false /\ JS.includes s t = false.
Proof. rewrite includes_cons. apply orb_false_iff. Qed.

Lemma replace_scan_none (str replacement : string) (t : string) :
  JS.includes t configDir = false ->
  forall pos, replace_scan str replacement pos 0 t = t.
Proof.
  induction t as [|c t IH]; intros H pos; [reflexivity|].
  apply includes_cons_false in H as [Hp Ht].
  cbn [replace_scan]. rewrite Hp. now rewrite IH.
Qed.

(** A string without the placeholder is left as it is. *)
Lemma replace_configDir_none (s replacement : string) :
  JS.includes s configDir = false -> replace_configDir s replacement = s.
Proof. intros H. now apply replace_scan_none. Qed.

(** A leading placeholder is exchanged for the replacement text. *)
Lemma replace_configDir_prefix (rest replacement : string) :
  dollarFree replacement = true ->
  JS.includes rest configDir = false ->
  replace_configDir (configDir ++ rest) replacement = replacement ++ rest.
Proof.
  intros Hr Hrest. unfold replace_configDir.
  rewrite replace_scan_placeholder, GetSubstitution_dollarFree by assumption.
  now rewrite replace_scan_none.
Qed.

Lemma resolve_absolute_last (cwd base p : string) :
  Posix.isAbsolute p = true ->
  Posix.resolve cwd [base; p] = Posix.resolve cwd [p].
Proof.
  intros H. unfold Posix.resolve. cbn [List.rev app Posix.resolveLoop].
  rewrite H. now destruct p.
Qed.

Section Substituted.
Context {node : Node}.

(** X10: in the always-first-priority variant, for a pattern with a stem
    and a first target that begins with the placeholder and holds no other,
    the two paths joined are: the root and the rest of the target when
    there is no [baseUrl]; the [baseUrl] (the root for [.]) and the root
    followed by the rest of the target when the [baseUrl] holds no
    placeholder, so that [.] gives the root twice; the root followed by the
    rest of the [baseUrl], and the rest of the target, when the [baseUrl]
    begins with the placeholder. *)
Theorem first_priority_substitution (root stem rest : string)
    (more : list string) :
  dollarFree root = true ->
  stem <> "" ->
  JS.includes rest configDir = false ->
  let entry := (stem ++ tsAliasSuffix,
                ((configDir ++ rest) ++ tsAliasSuffix) :: more) in
  let rule replacement := Ok [ {| find := stem; replacement := replacement |} ]
  in
  ResolveTsConfigAliases.resolveEntry root None entry
  = rule (path_resolve [path_join [root; rest]])
  /\ (forall bu,
        let base := if String.eqb bu "." then root else bu in
        base <> "" ->
        JS.includes base configDir = false ->
        ResolveTsConfigAliases.resolveEntry root (Some bu) entry
        = rule (path_resolve [path_join [base; root ++ rest]]))
  /\ (forall brest,
        JS.includes brest configDir = false ->
        ResolveTsConfigAliases.resolveEntry root (Some (configDir ++ brest))
          entry
        = rule (path_resolve [path_join [root ++ brest; rest]])).
Proof.
  intros Hroot Hstem Hrest entry rule. subst entry rule.
  assert (Htarget : ResolveTsConfigAliases.whenTruthy
                      (ResolveTsConfigAliases.tryExtractFindPatternFromTsAlias
                         ((configDir ++ rest) ++ tsAliasSuffix))
                    = Some (configDir ++ rest))
    by (now rewrite tryExtract_wildcard).
  assert (Hpattern : ResolveTsConfigAliases.whenTruthy
                       (ResolveTsConfigAliases.tryExtractFindPatternFromTsAlias
                          (stem ++ tsAliasSuffix))
                     = Some stem).
  { rewrite tryExtract_wildcard. cbn.
    destruct (JS.truthy stem) eqn:E; [reflexivity|].
    now apply truthy_false in E. }
  repeat split.
  - cbn [ResolveTsConfigAliases.resolveEntry]. rewrite Htarget, Hpattern.
    cbn [ResolveTsConfigAliases.whenTruthy].
    now rewrite (replace_configDir_prefix rest "") by auto.
  - intros bu base Hbase Hnone.
    cbn [ResolveTsConfigAliases.resolveEntry]. rewrite Htarget, Hpattern.
    assert (Hb : ResolveTsConfigAliases.whenTruthy
                   (if String.eqb bu "." then Some root else Some bu)
                 = Some base).
    { subst base. destruct (String.eqb bu "."); cbn;
        (destruct (JS.truthy _) eqn:E;
         [reflexivity | now apply truthy_false in E]). }
    rewrite Hb, Hnone.
    rewrite (replace_configDir_none base root Hnone).
    now rewrite (replace_configDir_prefix rest root Hroot Hrest).
  - intros brest Hbrest.
    cbn [ResolveTsConfigAliases.resolveEntry]. rewrite Htarget, Hpattern.
    replace (String.eqb (configDir ++ brest) ".") with false by reflexivity.
    replace (ResolveTsConfigAliases.whenTruthy (Some (configDir ++ brest)))
      with (Some (configDir ++ brest)) by reflexivity.
    replace (JS.includes (configDir ++ brest) configDir) with true.
    + rewrite (replace_configDir_prefix brest root Hroot Hbrest).
      now rewrite (replace_configDir_prefix rest "") by auto.
    + unfold JS.includes.
      now rewrite (indexOf_prefix _ _ (prefix_append configDir brest)).
Qed.

(** X11: in the existence-checking variant a target that begins with the
    placeholder and holds no other is resolved as the rest of the target
    against the base; when the rest begins with a separator, as in
    [${configDir}/src/*], Node's POSIX [path.resolve] returns the rest
    resolved alone, whatever the base and the root are. *)
Theorem probing_placeholder_target (base rest : string) :
  JS.includes rest configDir = false ->
  ResolveTsConfigPaths.resolveMap base ((configDir ++ rest) ++ tsAliasSuffix)
  = path_resolve [base; rest]
  /\ ((forall args, path_resolve args = Posix.resolve process_cwd args) ->
      Posix.isAbsolute rest = true ->
      forall other,
        ResolveTsConfigPaths.resolveMap base
          ((configDir ++ rest) ++ tsAliasSuffix)
        = ResolveTsConfigPaths.resolveMap other
            ((configDir ++ rest) ++ tsAliasSuffix)
        /\ ResolveTsConfigPaths.resolveMap base
             ((configDir ++ rest) ++ tsAliasSuffix)
           = Posix.resolve process_cwd [rest]).
Proof.
  intros Hrest.
  assert (Hmap : forall b,
            ResolveTsConfigPaths.resolveMap b
              ((configDir ++ rest) ++ tsAliasSuffix)
            = path_resolve [b; rest]).
  { intros b. unfold ResolveTsConfigPaths.resolveMap.
    rewrite removeSuffix_wildcard.
    replace (String.eqb (configDir ++ rest) "*") with false by reflexivity.
    now rewrite (replace_configDir_prefix rest "") by auto. }
  split; [apply Hmap|].
  intros Hposix Habs other. rewrite !Hmap, !Hposix.
  now rewrite !resolve_absolute_last by assumption.
Qed.

(** X12: under Node's POSIX [path.resolve], the pattern the root-only
    variant hands to the glob is its second, absolute argument for every
    project root: the files it reads are tsconfigs at the root of the file
    system, filtered by [keepTsConfig]. *)
Theorem root_only_glob (root : string) :
  (forall args, path_resolve args = Posix.resolve process_cwd args) ->
  ResolveTsConfigPaths.tsConfigFiles root
  = List.filter (keepTsConfig root) (fg_sync "/tsconfig(.*)?.json" []).
Proof.
  intros Hposix. unfold ResolveTsConfigPaths.tsConfigFiles.
  rewrite Hposix. reflexivity.
Qed.

End Substituted.

(** X10, X11 and X12 on a project at [/proj]. *)
Lemma first_priority_substitution_witness :
  @ResolveTsConfigAliases.resolveEntry probeNode "/proj" (Some ".")
    ("@x/*", ["${configDir}/src/*"])
  = Ok [ {| find := "@x"; replacement := "/proj/proj/src" |} ].
Proof.
  refine (proj1 (proj2 (@first_priority_substitution probeNode "/proj" "@x"
                          "/src" [] eq_refl _ eq_refl)) "." _ eq_refl);
    discriminate.
Defined.

Lemma probing_placeholder_target_witness :
  @ResolveTsConfigPaths.resolveMap probeNode "/proj/lib" "${configDir}/src/*"
  = "/src".
Proof.
  exact (proj2 (proj2 (@probing_placeholder_target probeNode "/proj/lib" "/src"
                         eq_refl)
                  (fun args => eq_refl) eq_refl "/other")).
Defined.

Lemma root_only_glob_witness :
  @ResolveTsConfigPaths.tsConfigFiles appNode "/proj"
  = List.filter (@keepTsConfig appNode "/proj")
      (@fg_sync appNode "/tsconfig(.*)?.json" []).
Proof.
  exact (@root_only_glob appNode "/proj" (fun args => eq_refl)).
Defined.

(** ** The harvested paths *)

Lemma getProperty_assign (paths : TsConfigPaths) (key key' : string)
    (value : list string) :
  getProperty (assign paths key value) key'
  = if String.eqb key key' then Some value else getProperty paths key'.
Proof.
  induction paths as [|[k v] paths IH]; cbn [assign getProperty].
  - reflexivity.
  - destruct (String.eqb_spec k key) as [->|Hne]; cbn [getProperty].
    + now destruct (String.eqb key key').
    + destruct (String.eqb_spec k key') as [->|Hne'].
      * destruct (String.eqb_spec key key'); [congruence | reflexivity].
      * exact IH.
Qed.

Lemma Forall_assign (Q : string * list string -> Prop)
    (paths : TsConfigPaths) (key : string) (value : list string) :
  Q (key, value) -> Forall Q paths -> Forall Q (assign paths key value).
Proof.
  intros Hq. induction 1 as [|[k v] paths Hk Hp IH]; cbn [assign].
  - now constructor.
  - destruct (String.eqb_spec k key) as [->|_]; constructor; auto.
Qed.

Section Harvested.
Context {node : Node}.

(** The own property an alias writes, if it writes one. *)
Lemma harvestAlias_getProperty (root : string) (paths : TsConfigPaths)
    (map : Alias) (key : string) :
  getProperty (harvestAlias root paths map) key
  = match alias_find map with
    | FindRegExp _ => getProperty paths key
    | FindString f =>
        let entry := harvestedEntry root f (alias_replacement map) in
        if negb (String.eqb (fst entry) "__proto__")
           && String.eqb (fst entry) key
        then Some (snd entry) else getProperty paths key
    end.
Proof.
  unfold harvestAlias, setProperty.
  destruct (alias_find map) as [f|]; [|reflexivity]. cbn zeta.
  destruct (String.eqb _ "__proto__"); [reflexivity|].
  now rewrite getProperty_assign.
Qed.

(** X13: [paths] keeps, under each name, what the last alias of that name
    wrote, across the calls it lives through: a name that no alias of the
    table writes keeps the value it had, an alias with a pattern object as
    [find] writes nothing, and after an alias whose name is not written
    again the name holds the one path that alias resolved to. *)
Theorem harvest_getProperty (root : string) (paths : TsConfigPaths)
    (aliasFromViteConfig : list Alias) (key : string) :
  (Forall
     (fun map =>
        forall f, alias_find map = FindString f ->
          fst (harvestedEntry root f (alias_replacement map)) <> key)
     aliasFromViteConfig ->
   getProperty (harvest root paths aliasFromViteConfig) key
   = getProperty paths key)
  /\ (forall before f replacement after,
        aliasFromViteConfig
        = (before
           ++ {| alias_find := FindString f;
                 alias_replacement := replacement |} :: after)%list ->
        fst (harvestedEntry root f replacement) = key ->
        key <> "__proto__" ->
        Forall
          (fun map =>
             forall f', alias_find map = FindString f' ->
               fst (harvestedEntry root f' (alias_replacement map)) <> key)
          after ->
        getProperty (harvest root paths aliasFromViteConfig) key
        = Some (snd (harvestedEntry root f replacement))).
Proof.
  assert (Hkeep : forall l p,
            Forall
              (fun map =>
                 forall f, alias_find map = FindString f ->
                   fst (harvestedEntry root f (alias_replacement map)) <> key)
              l ->
            getProperty (harvest root p l) key = getProperty p key).
  { induction l as [|map l IH]; intros p Hl; [reflexivity|].
    inversion Hl as [|? ? Hmap Hrest]; subst.
    unfold harvest in *. cbn [fold_left]. rewrite (IH _ Hrest).
    rewrite harvestAlias_getProperty.
    destruct (alias_find map) as [f|] eqn:E; [|reflexivity]. cbn zeta.
    destruct (String.eqb_spec
                (fst (harvestedEntry root f (alias_replacement map))) key)
      as [Heq|_]; [now apply Hmap in Heq | now rewrite andb_false_r]. }
  split; [apply Hkeep|].
  intros before f replacement after -> Hkey Hproto Hafter.
  unfold harvest in *. rewrite fold_left_app. cbn [fold_left].
  rewrite (Hkeep after _ Hafter), harvestAlias_getProperty.
  cbn [alias_find alias_replacement]. cbn zeta. rewrite Hkey.
  destruct (String.eqb_spec key "__proto__"); [contradiction|].
  now rewrite String.eqb_refl.
Qed.

Lemma entriesLoop_no_rule (root : string) (b : option string)
    (entries : TsConfigPaths) (acc : list ResolvedAlias) :
  Forall
    (fun entry => ResolveTsConfigAliases.resolveEntry root b entry = Ok [])
    entries ->
  ResolveTsConfigAliases.entriesLoop root b entries acc = Ok acc.
Proof.
  intros H. revert acc.
  induction H as [|entry entries He _ IH]; intros acc;
    cbn [ResolveTsConfigAliases.entriesLoop]; [reflexivity|].
  rewrite He. cbn [rbind]. now rewrite app_nil_r.
Qed.

(** X14: when no resolved replacement holds a line terminator, a property
    of freshly harvested [paths] is the [find] of an alias of the table, as
    it is, with the one path its replacement resolved to: no wildcard
    suffix is added to either. If besides no [find] ends with the suffix,
    the always-first-priority compiler makes no rule out of the document
    that is written. *)
Theorem harvest_adds_no_wildcard (root : string)
    (aliasFromViteConfig : list Alias) :
  Forall
    (fun map =>
       hasLineTerminator (resolvedReplacement root (alias_replacement map))
       = false)
    aliasFromViteConfig ->
  Forall
    (fun entry =>
       exists f replacement,
         In {| alias_find := FindString f; alias_replacement := replacement |}
            aliasFromViteConfig
         /\ entry = (f, [resolvedReplacement root replacement]))
    (harvest root [] aliasFromViteConfig)
  /\ (Forall
        (fun map =>
           forall f, alias_find map = FindString f ->
             JS.endsWith f tsAliasSuffix = false)
        aliasFromViteConfig ->
      ResolveTsConfigAliases.resolveAliases root
        (ownAliases
           (Some (tsconfigOf root (harvest root [] aliasFromViteConfig))))
      = Ok []).
Proof.
  intros Hclean.
  set (Q := fun entry : string * list string =>
              exists f replacement,
                In {| alias_find := FindString f;
                      alias_replacement := replacement |} aliasFromViteConfig
                /\ entry = (f, [resolvedReplacement root replacement])).
  assert (Hfold : forall l p,
            incl l aliasFromViteConfig -> Forall Q p ->
            Forall Q (harvest root p l)).
  { induction l as [|map l IH]; intros p Hincl Hp; [exact Hp|].
    unfold harvest in *. cbn [fold_left]. apply IH.
    - intros x Hx. apply Hincl. now right.
    - assert (Hin : In map aliasFromViteConfig) by (apply Hincl; now left).
      unfold harvestAlias, setProperty.
      destruct map as [[f|src] replacement]; cbn [alias_find alias_replacement];
        [|exact Hp].
      cbn zeta. destruct (String.eqb _ "__proto__"); [exact Hp|].
      apply Forall_assign; [|exact Hp].
      rewrite Forall_forall in Hclean. specialize (Hclean _ Hin).
      cbn [alias_replacement] in Hclean.
      unfold harvestedEntry, aliasIsFile_test. rewrite Hclean.
      cbn [negb fst snd]. now exists f, replacement. }
  assert (Hall : Forall Q (harvest root [] aliasFromViteConfig))
    by (apply Hfold; [apply incl_refl | constructor]).
  split; [exact Hall|].
  intros Hfinds. unfold ownAliases. cbn [cfg_paths cfg_baseUrl tsconfigOf
    compilerOptions co_paths co_baseUrl].
  destruct (JS.truthy root); [|reflexivity].
  unfold ResolveTsConfigAliases.resolveAliases.
  cbn [ResolveTsConfigAliases.aliasesLoop baseUrl paths].
  rewrite entriesLoop_no_rule; [reflexivity|].
  eapply Forall_impl; [|exact Hall].
  intros entry (f & replacement & Hin & ->).
  rewrite Forall_forall in Hfinds.
  specialize (Hfinds _ Hin f eq_refl).
  cbn [ResolveTsConfigAliases.resolveEntry].
  destruct (ResolveTsConfigAliases.whenTruthy _); [|reflexivity].
  unfold ResolveTsConfigAliases.tryExtractFindPatternFromTsAlias.
  now rewrite Hfinds.
Qed.

End Harvested.

(** X13 and X14 on a table with a relative and a bare replacement and a
    pattern object, in a project at [/proj]. *)
Lemma harvest_getProperty_witness :
  getProperty
    (@harvest probeNode "/proj" [("@app", ["/old"])]
       [ {| alias_find := FindString "@app"; alias_replacement := "./src" |};
         {| alias_find := FindRegExp "^~"; alias_replacement := "lib" |} ])
    "@app"
  = Some ["/proj/src"].
Proof.
  refine (proj2 (@harvest_getProperty probeNode "/proj" [("@app", ["/old"])]
                   _ "@app")
            [] "@app" "./src"
            [ {| alias_find := FindRegExp "^~"; alias_replacement := "lib" |} ]
            eq_refl eq_refl _ _).
  - discriminate.
  - repeat constructor. discriminate.
Defined.

Lemma harvest_adds_no_wildcard_witness :
  @ResolveTsConfigAliases.resolveAliases probeNode "/proj"
    (ownAliases
       (Some (tsconfigOf "/proj"
                (@harvest probeNode "/proj" []
                   [ {| alias_find := FindString "@app";
                        alias_replacement := "./src" |} ]))))
  = Ok [].
Proof.
  refine (proj2 (@harvest_adds_no_wildcard probeNode "/proj"
                   [ {| alias_find := FindString "@app";
                        alias_replacement := "./src" |} ] _) _);
    repeat constructor.
  intros f [= <-]. reflexivity.
Defined.

(** The harvested document for that table. *)
Example harvested_document :
  @harvest probeNode "/proj" []
    [ {| alias_find := FindString "@app"; alias_replacement := "./src" |};
      {| alias_find := FindRegExp "^~"; alias_replacement := "lib" |};
      {| alias_find := FindString "@lib"; alias_replacement := "lib/" |};
      {| alias_find := FindString "@app"; alias_replacement := "/opt/app" |} ]
  = [ ("@app", ["/opt/app"]); ("@lib", ["/proj/lib"]) ].
Proof. reflexivity. Qed.
